(** * portfolio-website: the preflight token helper, the scroll hook and the
    comment widget

    A shallow embedding of the three behavioural units of the repository:

    - the OAuth token helper quoted in the Apollo-Sandbox article
      ([TokenManager], a preflight script);
    - the React hook [useSaveScrollPosition];
    - the React component [Comments].

    JavaScript values, exceptions and the effects on the host (network,
    environment variables, console, browser storage, DOM) are explicit.  The
    builtins of the language and of the host are an interface ([Platform],
    [Host]); every theorem holds for all of its implementations, and a small
    executable implementation ([Demo]) runs the code on concrete inputs. *)

From Stdlib Require Import ZArith QArith Ascii String.
From stdpp Require Import base option list strings gmap pretty.

#[local] Set Warnings "-register-all".
Local Open Scope Z_scope.
Local Open Scope string_scope.
Local Open Scope list_scope.

(** ** JavaScript values *)

Module JS.

(** Numbers.  A finite IEEE double is read as the rational it denotes (the
    sign of zero is not kept); rounding is not modelled. *)
Inductive number :=
| Fin (q : Q)
| NaN
| Inf (positive : bool).

Definition number_of_Z (z : Z) : number := Fin (inject_Z z).

Definition Qltb (a b : Q) : bool := negb (Qle_bool b a).

(** [a < b] on numbers: false as soon as one side is NaN. *)
Definition number_lt (a b : number) : bool :=
  match a, b with
  | NaN, _ | _, NaN => false
  | Fin x, Fin y => Qltb x y
  | Fin _, Inf p => p
  | Inf p, Fin _ => negb p
  | Inf p, Inf p' => negb p && p'
  end.

(** Values: the JSON values and [undefined].  A string is the sequence of
    its code units, each of which fits a byte here; an object keeps its own
    properties in insertion order. *)
Inductive JVal :=
| JUndefined
| JNull
| JBool (b : bool)
| JNum (n : number)
| JStr (s : string)
| JArr (elements : list JVal)
| JObj (properties : list (string * JVal)).

(** Thrown values. *)
Inductive Exn :=
| TypeError
| SyntaxError
| URIError
| InvalidCharacterError
| Error (message : string)
| Rejection (reason : string).

(** The completion of an evaluation: a value, or a thrown exception. *)
Inductive Completion (A : Type) :=
| Normal (a : A)
| Throw (e : Exn).
Global Arguments Normal {A} a.
Global Arguments Throw {A} e.

Global Instance Completion_ret : MRet Completion := @Normal.
Global Instance Completion_bind : MBind Completion := λ A B f c,
  match c with
  | Normal a => f a
  | Throw e => Throw e
  end.

Global Instance Completion_fmap : FMap Completion := λ A B f c,
  match c with
  | Normal a => Normal (f a)
  | Throw e => Throw e
  end.

(** [try { c } catch (e) { h e }] *)
Definition try_catch {A} (c : Completion A) (h : Exn → Completion A) : Completion A :=
  match c with
  | Normal a => Normal a
  | Throw e => h e
  end.

Definition throws {A} (c : Completion A) : bool :=
  match c with
  | Normal _ => false
  | Throw _ => true
  end.

(** ToBoolean *)
Definition ToBoolean (v : JVal) : bool :=
  match v with
  | JUndefined | JNull => false
  | JBool b => b
  | JNum (Fin q) => negb (Qeq_bool q 0)
  | JNum NaN => false
  | JNum (Inf _) => true
  | JStr s => negb (String.eqb s "")
  | JArr _ | JObj _ => true
  end.

Fixpoint assoc (k : string) (l : list (string * JVal)) : option JVal :=
  match l with
  | [] => None
  | (k', v) :: r => if String.eqb k k' then Some v else assoc k r
  end.

(** The own property [k] of [v], [undefined] when it has none. *)
Definition own (v : JVal) (k : string) : JVal :=
  match v with
  | JObj ps => default JUndefined (assoc k ps)
  | _ => JUndefined
  end.

(** [v.k] and the destructuring [const { k } = v], for a property name [k]
    that no builtin prototype defines (all names read by the code below are
    of that kind): a TypeError on [undefined] and [null], the own property
    otherwise. *)
Definition get_prop (v : JVal) (k : string) : Completion JVal :=
  match v with
  | JUndefined | JNull => Throw TypeError
  | _ => Normal (own v k)
  end.

(** [v === 'lit'] for a string literal. *)
Definition strict_eq_string (v : JVal) (lit : string) : bool :=
  match v with
  | JStr s => String.eqb s lit
  | _ => false
  end.

(** [lits.indexOf(v)] on an array of string literals; [None] is [-1]. *)
Fixpoint indexOf (lits : list string) (v : JVal) : option nat :=
  match lits with
  | [] => None
  | l :: r => if strict_eq_string v l then Some 0%nat else S <$> indexOf r v
  end.

(** *** String methods *)

(** [s.split(sep)] for a one-character separator: never an empty array. *)
Fixpoint split (sep : ascii) (s : string) : list string :=
  match s with
  | "" => [""]
  | String c r =>
      if Ascii.eqb c sep then "" :: split sep r
      else match split sep r with
           | h :: t => String c h :: t
           | [] => [String c ""]
           end
  end.

(** [s.replace(/a/g, 'b')] for single characters. *)
Fixpoint replace_all (a b : ascii) (s : string) : string :=
  match s with
  | "" => ""
  | String c r => String (if Ascii.eqb c a then b else c) (replace_all a b r)
  end.

(** [s.slice(-k)]: the last [k] characters (all of [s] when it is shorter). *)
Definition slice_last (k : nat) (s : string) : string :=
  string_of_list_ascii
    (drop (String.length s - k)%nat (list_ascii_of_string s)).

(** [l.join(sep)] *)
Fixpoint join (sep : string) (l : list string) : string :=
  match l with
  | [] => ""
  | [x] => x
  | x :: r => x +:+ sep +:+ join sep r
  end.

Definition hex_digit (d : N) : ascii :=
  default "0"%char (list_ascii_of_string "0123456789abcdef" !! N.to_nat d).

(** [n.toString(16)] for a code unit [n < 256]. *)
Definition toString16 (n : N) : string :=
  if (n <? 16)%N then String (hex_digit n) ""
  else String (hex_digit (n / 16)) (String (hex_digit (n mod 16)) "").

(** [c.charCodeAt(0)] *)
Definition charCodeAt0 (c : ascii) : N := N_of_ascii c.

(** The builtins of the language that the code calls.  Each is total as a
    function: the ones that can throw return a completion. *)
Class Platform := {
  (** [atob(s)]: forgiving-base64 decoding, InvalidCharacterError otherwise *)
  atob : string → Completion string;
  (** [decodeURIComponent(s)]: URIError on a malformed escape *)
  decodeURIComponent : string → Completion string;
  (** [encodeURIComponent(v)], after ToString of its argument *)
  encodeURIComponent : JVal → Completion string;
  (** [JSON.parse(s)]: SyntaxError when [s] is not a JSON text *)
  JSON_parse : string → Completion JVal;
  (** ToPrimitive of an array or an object (a string, or a TypeError) *)
  ToPrimitive : JVal → Completion string;
  (** ToNumber of a string, as [Number(s)] computes it *)
  StringToNumber : string → number;
  (** ToString of a number *)
  NumberToString : number → string;
}.

End JS.

(** ** The preflight script: [TokenManager] *)

Module Token.
Import JS.

(** The second argument of [explorer.fetch] and what it resolves to. *)
Record RequestInit := {
  method : string;
  headers : list (string * string);
  body : string;
}.

Record Response := { response_body : string }.

(** What the script does to its host, in order. *)
Inductive Event :=
| EvFetch (url : string) (init : RequestInit)
| EvOAuth2Request (url : string) (params : list (string * JVal))
| EvEnvSet (key : string) (value : JVal)
| EvConsoleError (message : string) (error : Exn).

(** The host of the script (Apollo's [explorer] object and the clock).  An
    answer may depend on everything the script did before; a rejected
    promise is a thrown exception at the [await]. *)
Class Host := {
  explorer_fetch : list Event → string → RequestInit → Completion Response;
  explorer_oauth2Request :
    list Event → string → list (string * JVal) → Completion JVal;
  Date_now : list Event → Z;
}.

Record Endpoints := { authorize : string; token_endpoint : string }.

Definition ENDPOINTS : Endpoints := {|
  authorize :=
    "https://login.microsoftonline.com/<insert-tenant-name-here>/oauth2/v2.0/authorize";
  token_endpoint :=
    "https://login.microsoftonline.com/<insert-tenant-name-here>/oauth2/v2.0/token";
|}.

(** The [config] object; its keys in the order of the literal. *)
Record Config := {
  client_id : JVal;
  tenant_id : JVal;
  state : JVal;
  scope : JVal;
  response_type : JVal;
  code_challenge_method : JVal;
  code_challenge : JVal;
  code_verifier : JVal;
  redirect_uri : JVal;
}.

Definition entries (c : Config) : list (string * JVal) :=
  [ ("client_id", client_id c); ("tenant_id", tenant_id c);
    ("state", state c); ("scope", scope c);
    ("response_type", response_type c);
    ("code_challenge_method", code_challenge_method c);
    ("code_challenge", code_challenge c);
    ("code_verifier", code_verifier c);
    ("redirect_uri", redirect_uri c) ].

(** [explorer.environment.get(key)] *)
Definition environment_get (env : gmap string JVal) (key : string) : JVal :=
  default JUndefined (env !! key).

(** The [config] literal of the article, with its placeholders. *)
Definition config_literal (env : gmap string JVal) : Config := {|
  client_id := JStr "<insert-client-id-here>";
  tenant_id := JStr "<insert-tenant-id-here>";
  state := JStr "<insert-unique-state-string-here>";
  scope := JStr "<insert-scope-here>";
  response_type := JStr "code";
  code_challenge_method := JStr "S256";
  code_challenge := environment_get env "code_challenge";
  code_verifier := environment_get env "code_verifier";
  redirect_uri := JStr "https://studio.apollographql.com/explorer-oauth2";
|}.

(** [validateConfig]: the first falsy value, in key order, is reported. *)
Fixpoint validate_entries (l : list (string * JVal)) : Completion unit :=
  match l with
  | [] => Normal ()
  | (key, v) :: r =>
      if ToBoolean v then validate_entries r
      else Throw (Error ("Missing config value for " +:+ key))
  end.

Definition validateConfig (c : Config) : Completion unit :=
  validate_entries (entries c).

(** The fields of a [TokenManager] instance. *)
Record TokenManager := {
  token : JVal;
  refreshToken : JVal;
}.

(** The state the script runs in: the environment variables of the host,
    the instance [this], and what was done so far. *)
Record World := {
  environment : gmap string JVal;
  this : TokenManager;
  trace : list Event;
}.

(** A computation: a completion and the world it leaves, also when it
    throws. *)
Definition M (A : Type) : Type := World → Completion A * World.

Global Instance M_ret : MRet M := λ A a w, (Normal a, w).
Global Instance M_bind : MBind M := λ A B f m w,
  match m w with
  | (Normal a, w') => f a w'
  | (Throw e, w') => (Throw e, w')
  end.

Definition lift {A} (c : Completion A) : M A := λ w, (c, w).

(** [try { m } catch (error) { h error }] *)
Definition try_catchM {A} (m : M A) (h : Exn → M A) : M A := λ w,
  match m w with
  | (Normal a, w') => (Normal a, w')
  | (Throw e, w') => h e w'
  end.

Definition emit (ev : Event) (w : World) : World :=
  {| environment := environment w; this := this w; trace := trace w ++ [ev] |}.

Definition get_this : M TokenManager := λ w, (Normal (this w), w).

Definition set_token (v : JVal) : M unit := λ w,
  (Normal (),
   {| environment := environment w;
      this := {| token := v; refreshToken := refreshToken (this w) |};
      trace := trace w |}).

Definition set_refreshToken (v : JVal) : M unit := λ w,
  (Normal (),
   {| environment := environment w;
      this := {| token := token (this w); refreshToken := v |};
      trace := trace w |}).

(** [explorer.environment.set(key, value)] *)
Definition environment_set (key : string) (value : JVal) : M unit := λ w,
  (Normal (),
   emit (EvEnvSet key value)
     {| environment := <[key := value]> (environment w);
        this := this w; trace := trace w |}).

(** [console.error(message, error)] *)
Definition console_error (message : string) (error : Exn) : M unit := λ w,
  (Normal (), emit (EvConsoleError message error) w).

Section Script.
Context {platform : Platform} {host : Host}.
Variable config : Config.

(** [await explorer.fetch(url, init)] *)
Definition fetch (url : string) (init : RequestInit) : M Response := λ w,
  (explorer_fetch (trace w) url init, emit (EvFetch url init) w).

(** [await explorer.oauth2Request(url, params)] *)
Definition oauth2Request (url : string) (params : list (string * JVal)) : M JVal :=
  λ w, (explorer_oauth2Request (trace w) url params,
        emit (EvOAuth2Request url params) w).

(** [new TokenManager()] *)
Definition constructor : M unit := λ w,
  (Normal (),
   {| environment := environment w;
      this := {| token := environment_get (environment w) "token";
                 refreshToken := environment_get (environment w) "refresh_token" |};
      trace := trace w |}).

(** [constructRequestBody(data)] *)
Definition constructRequestBody (data : list (string * JVal)) : Completion string :=
  parts ← mapM (λ kv, enc ← encodeURIComponent kv.2;
                       mret (kv.1 +:+ "=" +:+ enc)) data;
  mret (join "&" parts).

(** [bytes.split('').map((c) => '%' + ('00' + c.charCodeAt(0).toString(16)).slice(-2)).join('')] *)
Definition percent_encode (bytes : string) : string :=
  join "" ((λ c, "%" +:+ slice_last 2 ("00" +:+ toString16 (charCodeAt0 c)))
           <$> list_ascii_of_string bytes).

(** The decoding that [parseJwt] and [isValidTokenHeader] share, from the
    base64url segment to the parsed JSON value. *)
Definition decode_segment (base64Url : string) : Completion JVal :=
  let base64 := replace_all "_" "/" (replace_all "-" "+" base64Url) in
  bytes ← atob base64;
  jsonPayload ← decodeURIComponent (percent_encode bytes);
  JSON_parse jsonPayload.

(** [parseJwt(token)] *)
Definition parseJwt (token : JVal) : Completion JVal :=
  match token with
  | JStr t =>
      match split "." t !! 1%nat with
      | Some base64Url => decode_segment base64Url
      | None => Throw TypeError
      end
  | _ => Throw TypeError
  end.

(** [x < n] for a number [n] *)
Definition less_than (x : JVal) (n : number) : Completion bool :=
  match x with
  | JUndefined => Normal false
  | JNull => Normal (number_lt (number_of_Z 0) n)
  | JBool b => Normal (number_lt (number_of_Z (if b then 1 else 0)) n)
  | JNum m => Normal (number_lt m n)
  | JStr s => Normal (number_lt (StringToNumber s) n)
  | JArr _ | JObj _ => s ← ToPrimitive x; Normal (number_lt (StringToNumber s) n)
  end.

(** [Math.floor(Date.now() / 1000)] *)
Definition now_seconds (now : Z) : number := number_of_Z (now / 1000).

(** [isTokenExpired()], at time [now] (milliseconds) *)
Definition isTokenExpired (token : JVal) (now : Z) : Completion bool :=
  decodedAccessToken ← parseJwt token;
  exp ← get_prop decodedAccessToken "exp";
  less_than exp (now_seconds now).

(** The [try] block of [isValidTokenHeader] *)
Definition isValidTokenHeader_try (token : JVal) : Completion bool :=
  match token with
  | JStr t =>
      match split "." t with
      | headerBase64Url :: _ =>
          header ← decode_segment headerBase64Url;
          typ ← get_prop header "typ";
          if negb (strict_eq_string typ "JWT") then Normal false
          else
            alg ← get_prop header "alg";
            if bool_decide (indexOf ["HS256"; "RS256"] alg = None) then Normal false
            else Normal true
      | [] => Throw TypeError
      end
  | _ => Throw TypeError
  end.

(** [isValidTokenHeader()] *)
Definition isValidTokenHeader (token : JVal) : Completion bool :=
  try_catch (isValidTokenHeader_try token) (λ _, Normal false).

(** [refreshAccessToken()] *)
Definition refreshAccessToken : M JVal :=
  this ← get_this;
  body ← lift (constructRequestBody
                 [ ("client_id", client_id config);
                   ("grant_type", JStr "refresh_token");
                   ("refresh_token", refreshToken this) ]);
  tokenResponse ← fetch (token_endpoint ENDPOINTS)
    {| method := "POST";
       headers := [("Content-Type", "application/x-www-form-urlencoded")];
       body := body |};
  parsed ← lift (JSON_parse (response_body tokenResponse));
  access_token ← lift (get_prop parsed "access_token");
  error ← lift (get_prop parsed "error");
  if ToBoolean error then
    lift (Throw (Error "Unable to refresh access token. Refresh token may be expired."))
  else mret access_token.

(** [retrieveNewTokens()]: the pair is [{ access_token, refresh_token }]. *)
Definition retrieveNewTokens : M (JVal * JVal) :=
  authorization ← oauth2Request (authorize ENDPOINTS)
    [ ("client_id", client_id config); ("state", state config);
      ("scope", scope config); ("response_type", response_type config);
      ("code_challenge_method", code_challenge_method config);
      ("code_challenge", code_challenge config) ];
  code ← lift (get_prop authorization "code");
  body ← lift (constructRequestBody
                 [ ("client_id", client_id config);
                   ("tenant_id", tenant_id config);
                   ("code", code);
                   ("code_verifier", code_verifier config);
                   ("grant_type", JStr "authorization_code");
                   ("redirect_uri", redirect_uri config) ]);
  tokenResponse ← fetch (token_endpoint ENDPOINTS)
    {| method := "POST";
       headers := [("Content-Type", "application/x-www-form-urlencoded")];
       body := body |};
  parsed ← lift (JSON_parse (response_body tokenResponse));
  access_token ← lift (get_prop parsed "access_token");
  refresh_token ← lift (get_prop parsed "refresh_token");
  mret (access_token, refresh_token).

(** The condition of the first [if] of [getAccessToken]:
    [this.token && !this.isTokenExpired() && this.isValidTokenHeader()] *)
Definition cached_token_usable : M bool := λ w,
  let t := token (this w) in
  (if ToBoolean t then
     expired ← isTokenExpired t (Date_now (trace w));
     if negb expired then isValidTokenHeader t else Normal false
   else Normal false, w).

(** The [try] block of [getAccessToken] *)
Definition refresh_and_store : M JVal :=
  t ← refreshAccessToken;
  set_token t;;
  this ← get_this;
  environment_set "token" (token this);;
  this ← get_this;
  mret (token this).

(** The statements of [getAccessToken] after its two [if]s *)
Definition store_new_tokens : M JVal :=
  tokens ← retrieveNewTokens;
  set_token tokens.1;;
  set_refreshToken tokens.2;;
  this ← get_this;
  environment_set "token" (token this);;
  this ← get_this;
  environment_set "refresh_token" (refreshToken this);;
  this ← get_this;
  mret (token this).

(** [getAccessToken()].  The [try] either returns from the function
    ([Some]) or falls through to the statements below ([None]). *)
Definition getAccessToken : M JVal :=
  usable ← cached_token_usable;
  if (usable : bool) then this ← get_this; mret (token this)
  else
    this ← get_this;
    returned ←
      (if ToBoolean (refreshToken this) then
         try_catchM (t ← refresh_and_store; mret (Some t))
           (λ error,
              console_error "Failed to refresh access token:" error;;
              mret None)
       else mret None);
    match returned with
    | Some t => mret t
    | None => store_new_tokens
    end.

(** The statements of the script after its constants: validate, construct,
    get the token. *)
Definition preflight : M JVal :=
  lift (validateConfig config);;
  constructor;;
  getAccessToken.

End Script.

(** The script of the article, as it is pasted *)
Definition script `{!Platform, !Host} : M JVal := λ w,
  preflight (config_literal (environment w)) w.

End Token.

(** ** The browser side: [useSaveScrollPosition] and [Comments] *)

Module Browser.
Import JS.

(** A DOM element: tag, content attributes in the order they were set, the
    [async] property, children.  A node is named by its path from the root
    (child indices). *)
Inductive Node :=
| Element (tagName : string) (attributes : list (string * string))
    (async : bool) (childNodes : list Node).

Definition tagName_of (n : Node) : string := let 'Element t _ _ _ := n in t.
Definition attributes_of (n : Node) : list (string * string) :=
  let 'Element _ a _ _ := n in a.
Definition async_of (n : Node) : bool := let 'Element _ _ s _ := n in s.
Definition childNodes_of (n : Node) : list Node := let 'Element _ _ _ c := n in c.

Fixpoint attr (name : string) (l : list (string * string)) : option string :=
  match l with
  | [] => None
  | (k, v) :: r => if String.eqb name k then Some v else attr name r
  end.

(** [n.getAttribute(name)]; [None] is [null]. *)
Definition getAttribute (name : string) (n : Node) : option string :=
  attr name (attributes_of n).

Fixpoint set_attr (name value : string) (l : list (string * string))
  : list (string * string) :=
  match l with
  | [] => [(name, value)]
  | (k, v) :: r =>
      if String.eqb name k then (k, value) :: r else (k, v) :: set_attr name value r
  end.

(** [n.setAttribute(name, value)] *)
Definition setAttribute (name value : string) (n : Node) : Node :=
  let 'Element t a s c := n in Element t (set_attr name value a) s c.

(** [n.async = b] *)
Definition set_async (b : bool) (n : Node) : Node :=
  let 'Element t a _ c := n in Element t a b c.

(** [document.createElement(tag)] *)
Definition createElement (tag : string) : Node := Element tag [] false [].

Fixpoint node_at (p : list nat) (n : Node) : option Node :=
  match p with
  | [] => Some n
  | k :: p' => childNodes_of n !! k ≫= node_at p'
  end.

(** Rewrites the node at path [p]; [None] when there is no such node. *)
Fixpoint update_at (p : list nat) (f : Node → Node) (n : Node) : option Node :=
  match p with
  | [] => Some (f n)
  | k :: p' =>
      let 'Element t a s c := n in
      child ← c !! k;
      child' ← update_at p' f child;
      Some (Element t a s (<[k := child']> c))
  end.

(** The first hit of [find] among the siblings [l], the first of which is
    child number [k] *)
Fixpoint first_in (find : Node → option (list nat)) (k : nat) (l : list Node)
  : option (list nat) :=
  match l with
  | [] => None
  | child :: r =>
      match find child with
      | Some p => Some (k :: p)
      | None => first_in find (S k) r
      end
  end.

(** [document.getElementById(id)]: the first element in tree order. *)
Fixpoint getElementById (id : string) (n : Node) : option (list nat) :=
  let 'Element _ a _ c := n in
  if bool_decide (attr "id" a = Some id) then Some []
  else first_in (getElementById id) 0%nat c.

(** What the code does to the browser, in order. *)
Inductive Effect :=
| GetItem (key : string)
| SetItem (key value : string)
| ScrollTo (top : number) (behavior : string)
| AddEventListener (type : string) (listener : nat)
| RemoveEventListener (type : string) (listener : nat).

(** The browser: storage, the scroll offset of the window, the listeners of
    the document for [scroll] (closures, by identity), the next fresh
    closure, the document, the clock, and what was done so far. *)
Record State := {
  localStorage : gmap string string;
  scrollY : number;
  scroll_listeners : list nat;
  next_closure : nat;
  document : Node;
  now : Z;
  log : list Effect;
}.

Definition with_log (l : list Effect) (b : State) : State :=
  {| localStorage := localStorage b; scrollY := scrollY b;
     scroll_listeners := scroll_listeners b; next_closure := next_closure b;
     document := document b; now := now b; log := l |}.

Definition with_localStorage (m : gmap string string) (b : State) : State :=
  {| localStorage := m; scrollY := scrollY b;
     scroll_listeners := scroll_listeners b; next_closure := next_closure b;
     document := document b; now := now b; log := log b |}.

Definition with_scrollY (y : number) (b : State) : State :=
  {| localStorage := localStorage b; scrollY := y;
     scroll_listeners := scroll_listeners b; next_closure := next_closure b;
     document := document b; now := now b; log := log b |}.

Definition with_listeners (l : list nat) (next : nat) (b : State) : State :=
  {| localStorage := localStorage b; scrollY := scrollY b;
     scroll_listeners := l; next_closure := next;
     document := document b; now := now b; log := log b |}.

Definition with_document (d : Node) (b : State) : State :=
  {| localStorage := localStorage b; scrollY := scrollY b;
     scroll_listeners := scroll_listeners b; next_closure := next_closure b;
     document := d; now := now b; log := log b |}.

Definition record (e : Effect) (b : State) : State := with_log (log b ++ [e]) b.

(** [localStorage.getItem(key)]; [None] is [null]. *)
Definition getItem (key : string) (b : State) : option string * State :=
  (localStorage b !! key, record (GetItem key) b).

(** [localStorage.setItem(key, value)], [value] already a string *)
Definition setItem (key value : string) (b : State) : State :=
  record (SetItem key value) (with_localStorage (<[key := value]> (localStorage b)) b).

(** [window.scrollTo({ top, behavior })]: a request to the browser, which
    answers with scroll events as the window moves. *)
Definition scrollTo (top : number) (behavior : string) (b : State) : State :=
  record (ScrollTo top behavior) b.

(** [document.addEventListener('scroll', f)]: a listener already there is
    not added again. *)
Definition addEventListener (f : nat) (b : State) : State :=
  record (AddEventListener "scroll" f)
    (if bool_decide (f ∈ scroll_listeners b) then b
     else with_listeners (scroll_listeners b ++ [f]) (next_closure b) b).

(** [document.removeEventListener('scroll', f)] *)
Definition removeEventListener (f : nat) (b : State) : State :=
  record (RemoveEventListener "scroll" f)
    (with_listeners (filter (λ g, g ≠ f) (scroll_listeners b)) (next_closure b) b).

Section Components.
Context {platform : Platform}.

(** The closure [saveScrollPosition] of the hook *)
Definition saveScrollPosition (b : State) : State :=
  setItem "scrollPosition" (NumberToString (scrollY b)) b.

(** The effect of [useSaveScrollPosition], run when the component mounts.
    It returns its cleanup, here the closure to remove. *)
Definition useSaveScrollPosition_effect (b : State) : nat * State :=
  let '(scrollPosition, b) := getItem "scrollPosition" b in
  let b :=
    match scrollPosition with
    | Some s =>
        if negb (String.eqb s "") then scrollTo (StringToNumber s) "smooth" b
        else b
    | None => b
    end in
  let saveScrollPosition_closure := next_closure b in
  let b := with_listeners (scroll_listeners b) (S (next_closure b)) b in
  (saveScrollPosition_closure, addEventListener saveScrollPosition_closure b).

(** The cleanup returned by the effect, run when the component unmounts. *)
Definition useSaveScrollPosition_cleanup (closure : nat) (b : State) : State :=
  removeEventListener closure b.

(** A scroll event of the document: the window is at offset [y], and every
    registered listener runs. *)
Definition scroll_event (y : number) (b : State) : State :=
  foldl (λ b _, saveScrollPosition b) (with_scrollY y b) (scroll_listeners b).

(** ['comments_' + Date.now()] *)
Definition commentNodeId (now : Z) : string :=
  "comments_" +:+ NumberToString (number_of_Z now).

(** The script element built by [Comments] *)
Definition utterances_script : Node :=
  set_async true
    (setAttribute "crossorigin" "anonymous"
       (setAttribute "theme" "preferred-color-scheme"
          (setAttribute "issue-term" "pathname"
             (setAttribute "repo" "mxmnci/portfolio-website"
                (setAttribute "src" "https://utteranc.es/client.js"
                   (createElement "script")))))).

(** [n.innerHTML = `<div id="${id}" />`]: the children of [n] are replaced
    by what the markup parses to, one empty [div] with that id. *)
Definition set_innerHTML_div (id : string) (n : Node) : Node :=
  let 'Element t a s _ := n in Element t a s [Element "div" [("id", id)] false []].

(** [n.appendChild(child)] *)
Definition appendChild (child : Node) (n : Node) : Node :=
  let 'Element t a s c := n in Element t a s (c ++ [child]).

(** The effect of [Comments], run when the component mounts;
    [commentBox] is the path of the element [commentBox.current]. *)
Definition Comments_effect (commentBox : list nat) (b : State) : Completion unit * State :=
  let commentNodeId := commentNodeId (now b) in
  match update_at commentBox (set_innerHTML_div commentNodeId) (document b) with
  | None => (Throw TypeError, b)
  | Some d =>
      let b := with_document d b in
      let script := utterances_script in
      match getElementById commentNodeId (document b) with
      | None => (Throw TypeError, b)
      | Some container =>
          match update_at container (appendChild script) (document b) with
          | None => (Throw TypeError, b)
          | Some d' => (Normal (), with_document d' b)
          end
      end
  end.

(** What happens in a page that uses the two components. *)
Inductive Action :=
| MountScrollHook
| UnmountScrollHook (closure : nat)
| Scroll (y : number)
| MountComments (commentBox : list nat).

Definition step (b : State) (a : Action) : State :=
  match a with
  | MountScrollHook => (useSaveScrollPosition_effect b).2
  | UnmountScrollHook closure => useSaveScrollPosition_cleanup closure b
  | Scroll y => scroll_event y b
  | MountComments commentBox => (Comments_effect commentBox b).2
  end.

Definition run (actions : list Action) (b : State) : State := foldl step b actions.

End Components.

End Browser.

(** ** An executable platform

    The builtins, implemented for strings of Latin-1 code units and for
    numbers that have a finite decimal expansion.  It is used to run the
    code of the repository on concrete inputs; no theorem on the code
    depends on it. *)

Module Demo.
Import JS.

Definition code (c : ascii) : N := N_of_ascii c.

Definition in_range (lo hi : N) (c : ascii) : bool :=
  ((lo <=? code c) && (code c <=? hi))%N.

Definition is_digit (c : ascii) : bool := in_range 48 57 c.

Definition digit_value (c : ascii) : Z := Z.of_N (code c - 48).

(** *** [atob]: forgiving-base64 decoding *)

Definition is_ascii_whitespace (c : ascii) : bool :=
  bool_decide (code c ∈ [9; 10; 12; 13; 32]%N).

Definition sextet (c : ascii) : option N :=
  if in_range 65 90 c then Some (code c - 65)%N
  else if in_range 97 122 c then Some (code c - 71)%N
  else if in_range 48 57 c then Some (code c + 4)%N
  else if (code c =? 43)%N then Some 62%N
  else if (code c =? 47)%N then Some 63%N
  else None.

Definition strip_padding (data : list ascii) : list ascii :=
  if (length data mod 4 =? 0)%nat then
    match reverse data with
    | "="%char :: "="%char :: r => reverse r
    | "="%char :: r => reverse r
    | _ => data
    end
  else data.

Fixpoint decode_groups (l : list N) : list N :=
  match l with
  | a :: b :: c :: d :: r =>
      let n := (a * 262144 + b * 4096 + c * 64 + d)%N in
      (n / 65536)%N :: ((n / 256) mod 256)%N :: (n mod 256)%N :: decode_groups r
  | [a; b; c] =>
      let n := ((a * 4096 + b * 64 + c) / 4)%N in
      [(n / 256)%N; (n mod 256)%N]
  | [a; b] => [((a * 64 + b) / 16)%N]
  | _ => []
  end.

Definition atob (s : string) : Completion string :=
  let data :=
    strip_padding
      (filter (λ c, is_ascii_whitespace c = false) (list_ascii_of_string s)) in
  if (length data mod 4 =? 1)%nat then Throw InvalidCharacterError
  else
    match mapM sextet data with
    | None => Throw InvalidCharacterError
    | Some l => Normal (string_of_list_ascii (ascii_of_N <$> decode_groups l))
    end.

(** *** [decodeURIComponent] and [encodeURIComponent] *)

Definition hex_value (c : ascii) : option N :=
  if is_digit c then Some (code c - 48)%N
  else if in_range 65 70 c then Some (code c - 55)%N
  else if in_range 97 102 c then Some (code c - 87)%N
  else None.

(** The octet of an escape [%XY] at the head of the input *)
Definition escape (l : list ascii) : option (N * list ascii) :=
  match l with
  | "%"%char :: x :: y :: r =>
      hx ← hex_value x; hy ← hex_value y; Some (hx * 16 + hy, r)%N
  | _ => None
  end.

Definition unmodelled : Exn := Rejection "a code point beyond U+00FF".

Fixpoint decode_uri (fuel : nat) (l : list ascii) : Completion (list ascii) :=
  match fuel, l with
  | _, [] => Normal []
  | O, _ => Throw URIError
  | S fuel, c :: r =>
      if (code c =? 37)%N then
        match escape l with
        | None => Throw URIError
        | Some (b, r1) =>
            if (b <? 128)%N then s ← decode_uri fuel r1; Normal (ascii_of_N b :: s)
            else if (b <? 194)%N || (244 <? b)%N then Throw URIError
            else if (195 <? b)%N then Throw unmodelled
            else
              match escape r1 with
              | None => Throw URIError
              | Some (b2, r2) =>
                  if (b2 <? 128)%N || (191 <? b2)%N then Throw URIError
                  else
                    s ← decode_uri fuel r2;
                    Normal (ascii_of_N ((b - 192) * 64 + (b2 - 128)) :: s)
              end
        end
      else s ← decode_uri fuel r; Normal (c :: s)
  end.

Definition decodeURIComponent (s : string) : Completion string :=
  string_of_list_ascii <$> decode_uri (String.length s) (list_ascii_of_string s).

Definition upper_hex (d : N) : ascii :=
  default "0"%char (list_ascii_of_string "0123456789ABCDEF" !! N.to_nat d).

Definition percent (b : N) : string :=
  String "%" (String (upper_hex (b / 16)) (String (upper_hex (b mod 16)) "")).

Definition unreserved (c : ascii) : bool :=
  in_range 65 90 c || in_range 97 122 c || is_digit c
  || bool_decide (c ∈ list_ascii_of_string "-_.!~*'()").

Definition encode_unit (c : ascii) : string :=
  if unreserved c then String c ""
  else if (code c <? 128)%N then percent (code c)
  else percent (192 + code c / 64) +:+ percent (128 + code c mod 64).

(** *** ToString of numbers *)

Fixpoint strip_zeros (fuel : nat) (m : Z) (dropped : Z) : Z * Z :=
  match fuel with
  | O => (m, dropped)
  | S fuel =>
      if (m mod 10 =? 0)%Z && negb (m =? 0)%Z then strip_zeros fuel (m / 10) (dropped + 1)
      else (m, dropped)
  end.

(** The least [j ≤ fuel] with [q * 10^j] an integer, and that integer *)
Fixpoint scale (fuel : nat) (q : Q) (j : Z) : option (Z * Z) :=
  if (Z.pos (Qden (Qred q)) =? 1)%Z then Some (Qnum (Qred q), j)
  else
    match fuel with
    | O => None
    | S fuel => scale fuel (q * 10)%Q (j + 1)
    end.

Definition zeros (k : Z) : string :=
  string_of_list_ascii (replicate (Z.to_nat k) "0"%char).

Definition take_string (k : Z) (s : string) : string :=
  string_of_list_ascii (take (Z.to_nat k) (list_ascii_of_string s)).

Definition drop_string (k : Z) (s : string) : string :=
  string_of_list_ascii (drop (Z.to_nat k) (list_ascii_of_string s)).

(** Number::toString for a positive number [s × 10^(n - k)], [s] of [k]
    digits *)
Definition format_digits (digits : string) (n : Z) : string :=
  let k := Z.of_nat (String.length digits) in
  if ((k <=? n) && (n <=? 21))%Z then digits +:+ zeros (n - k)
  else if ((0 <? n) && (n <=? 21))%Z then
    take_string n digits +:+ "." +:+ drop_string n digits
  else if ((-6 <? n) && (n <=? 0))%Z then "0." +:+ zeros (- n) +:+ digits
  else
    let e := (if (0 <=? n - 1)%Z then "e+" else "e-") +:+ pretty (Z.abs (n - 1)) in
    if (k =? 1)%Z then digits +:+ e
    else take_string 1 digits +:+ "." +:+ drop_string 1 digits +:+ e.

Definition positive_to_string (q : Q) : string :=
  match scale 1100 q 0 with
  | Some (m, j) =>
      let '(s, dropped) := strip_zeros 400 m 0 in
      let digits := pretty s in
      format_digits digits (Z.of_nat (String.length digits) + dropped - j)
  | None => pretty (Qnum q) +:+ "/" +:+ pretty (Z.pos (Qden q))
  end.

Definition NumberToString (x : number) : string :=
  match x with
  | NaN => "NaN"
  | Inf true => "Infinity"
  | Inf false => "-Infinity"
  | Fin q =>
      if Qeq_bool q 0 then "0"
      else if Qltb q 0 then "-" +:+ positive_to_string (- q)%Q
      else positive_to_string q
  end.

(** *** ToPrimitive and ToString of values *)

Fixpoint ToString (v : JVal) : Completion string :=
  match v with
  | JUndefined => Normal "undefined"
  | JNull => Normal "null"
  | JBool b => Normal (if b then "true" else "false")
  | JNum x => Normal (NumberToString x)
  | JStr s => Normal s
  | JArr elements =>
      join "," <$>
        (fix each (l : list JVal) : Completion (list string) :=
           match l with
           | [] => Normal []
           | e :: r =>
               s ← match e with
                   | JUndefined | JNull => Normal ""
                   | _ => ToString e
                   end;
               rest ← each r;
               Normal (s :: rest)
           end) elements
  | JObj properties =>
      match assoc "toString" properties with
      | Some _ => Throw TypeError
      | None => Normal "[object Object]"
      end
  end.

Definition encodeURIComponent (v : JVal) : Completion string :=
  s ← ToString v;
  Normal (join "" (encode_unit <$> list_ascii_of_string s)).

(** *** Decimal literals *)

Fixpoint span_digits (l : list ascii) : list ascii * list ascii :=
  match l with
  | c :: r =>
      if is_digit c then let '(ds, rest) := span_digits r in (c :: ds, rest)
      else ([], l)
  | [] => ([], [])
  end.

Definition digits_to_Z (ds : list ascii) : Z :=
  foldl (λ acc c, acc * 10 + digit_value c)%Z 0%Z ds.

Definition pow10 (e : Z) : Q :=
  if (0 <=? e)%Z then inject_Z (10 ^ e) else (/ inject_Z (10 ^ (- e)))%Q.

(** [int.frac × 10^e] *)
Definition decimal_value (int frac : list ascii) (e : Z) : Q :=
  Qred (inject_Z (digits_to_Z (int ++ frac)) * pow10 (e - Z.of_nat (length frac)))%Q.

(** An exponent part [e±digits] at the head of the input, when there is one *)
Definition exponent (l : list ascii) : option (Z * list ascii) :=
  match l with
  | c :: r =>
      if bool_decide (c = "e"%char ∨ c = "E"%char) then
        let '(sign, r) :=
          match r with
          | "+"%char :: r' => (1%Z, r')
          | "-"%char :: r' => ((-1)%Z, r')
          | _ => (1%Z, r)
          end in
        match span_digits r with
        | ([], _) => None
        | (ds, rest) => Some ((sign * digits_to_Z ds)%Z, rest)
        end
      else None
  | [] => None
  end.

(** *** [JSON.parse] *)

Definition is_json_whitespace (c : ascii) : bool :=
  bool_decide (code c ∈ [9; 10; 13; 32]%N).

Fixpoint skip_ws (l : list ascii) : list ascii :=
  match l with
  | c :: r => if is_json_whitespace c then skip_ws r else l
  | [] => []
  end.

Definition json_number (l : list ascii) : Completion (JVal * list ascii) :=
  let '(negative, l) :=
    match l with "-"%char :: r => (true, r) | _ => (false, l) end in
  let '(int, l) := span_digits l in
  match int with
  | [] => Throw SyntaxError
  | d :: more =>
      if bool_decide (d = "0"%char ∧ more ≠ []) then Throw SyntaxError
      else
        frac_rest ←
          match l with
          | "."%char :: r =>
              match span_digits r with
              | ([], _) => Throw SyntaxError
              | (fs, rest) => Normal (fs, rest)
              end
          | _ => Normal ([], l)
          end;
        let '(frac, l) := frac_rest in
        let '(e, l) :=
          match exponent l with Some (e, rest) => (e, rest) | None => (0%Z, l) end in
        let q := decimal_value int frac e in
        Normal (JNum (Fin (if negative then Qred (- q) else q)), l)
  end.

(** The characters of a string literal after its opening quote *)
Fixpoint json_string (l : list ascii) : Completion (string * list ascii) :=
  match l with
  | [] => Throw SyntaxError
  | c :: r =>
      if (code c =? 34)%N then Normal ("", r)
      else if (code c =? 92)%N then
        match r with
        | [] => Throw SyntaxError
        | e :: r' =>
            let simple (x : N) :=
              sr ← json_string r'; Normal (String (ascii_of_N x) sr.1, sr.2) in
            if (code e =? 34)%N then simple 34%N
            else if (code e =? 92)%N then simple 92%N
            else if (code e =? 47)%N then simple 47%N
            else if (code e =? 98)%N then simple 8%N
            else if (code e =? 102)%N then simple 12%N
            else if (code e =? 110)%N then simple 10%N
            else if (code e =? 114)%N then simple 13%N
            else if (code e =? 116)%N then simple 9%N
            else if (code e =? 117)%N then
              match r' with
              | a :: b :: c' :: d :: r'' =>
                  match hex_value a, hex_value b, hex_value c', hex_value d with
                  | Some va, Some vb, Some vc, Some vd =>
                      if ((va =? 0) && (vb =? 0))%N then
                        sr ← json_string r'';
                        Normal (String (ascii_of_N (vc * 16 + vd)) sr.1, sr.2)
                      else Throw unmodelled
                  | _, _, _, _ => Throw SyntaxError
                  end
              | _ => Throw SyntaxError
              end
            else Throw SyntaxError
        end
      else if (code c <? 32)%N then Throw SyntaxError
      else sr ← json_string r; Normal (String c sr.1, sr.2)
  end.

(** Defining a property: a key already there keeps its place. *)
Fixpoint set_prop (k : string) (v : JVal) (ps : list (string * JVal))
  : list (string * JVal) :=
  match ps with
  | [] => [(k, v)]
  | (k', v') :: r =>
      if String.eqb k k' then (k', v) :: r else (k', v') :: set_prop k v r
  end.

Definition literal (word : string) (v : JVal) (l : list ascii)
  : Completion (JVal * list ascii) :=
  let w := list_ascii_of_string word in
  if bool_decide (take (length w) l = w) then Normal (v, drop (length w) l)
  else Throw SyntaxError.

Fixpoint json_value (fuel : nat) (l : list ascii) : Completion (JVal * list ascii) :=
  match fuel with
  | O => Throw SyntaxError
  | S fuel =>
      match skip_ws l with
      | [] => Throw SyntaxError
      | c :: r =>
          if (code c =? 123)%N then
            match skip_ws r with
            | c' :: r' =>
                if (code c' =? 125)%N then Normal (JObj [], r')
                else json_members fuel (skip_ws r) []
            | [] => Throw SyntaxError
            end
          else if (code c =? 91)%N then
            match skip_ws r with
            | c' :: r' =>
                if (code c' =? 93)%N then Normal (JArr [], r')
                else json_elements fuel (skip_ws r) []
            | [] => Throw SyntaxError
            end
          else if (code c =? 34)%N then
            sr ← json_string r; Normal (JStr sr.1, sr.2)
          else if (code c =? 116)%N then literal "true" (JBool true) (c :: r)
          else if (code c =? 102)%N then literal "false" (JBool false) (c :: r)
          else if (code c =? 110)%N then literal "null" JNull (c :: r)
          else json_number (c :: r)
      end
  end
with json_elements (fuel : nat) (l : list ascii) (acc : list JVal)
  : Completion (JVal * list ascii) :=
  match fuel with
  | O => Throw SyntaxError
  | S fuel =>
      vr ← json_value fuel l;
      match skip_ws vr.2 with
      | c :: r =>
          if (code c =? 44)%N then json_elements fuel r (acc ++ [vr.1])
          else if (code c =? 93)%N then Normal (JArr (acc ++ [vr.1]), r)
          else Throw SyntaxError
      | [] => Throw SyntaxError
      end
  end
with json_members (fuel : nat) (l : list ascii) (acc : list (string * JVal))
  : Completion (JVal * list ascii) :=
  match fuel with
  | O => Throw SyntaxError
  | S fuel =>
      match skip_ws l with
      | q :: r =>
          if (code q =? 34)%N then
            kr ← json_string r;
            match skip_ws kr.2 with
            | colon :: r' =>
                if (code colon =? 58)%N then
                  vr ← json_value fuel r';
                  match skip_ws vr.2 with
                  | c :: r'' =>
                      if (code c =? 44)%N then
                        json_members fuel r'' (set_prop kr.1 vr.1 acc)
                      else if (code c =? 125)%N then
                        Normal (JObj (set_prop kr.1 vr.1 acc), r'')
                      else Throw SyntaxError
                  | [] => Throw SyntaxError
                  end
                else Throw SyntaxError
            | [] => Throw SyntaxError
            end
          else Throw SyntaxError
      | [] => Throw SyntaxError
      end
  end.

Definition JSON_parse (s : string) : Completion JVal :=
  vr ← json_value (2 * String.length s + 2) (list_ascii_of_string s);
  match skip_ws vr.2 with
  | [] => Normal vr.1
  | _ => Throw SyntaxError
  end.

(** *** ToNumber of strings *)

Definition is_str_whitespace (c : ascii) : bool :=
  bool_decide (code c ∈ [9; 10; 11; 12; 13; 32; 160]%N).

Fixpoint trim_start (l : list ascii) : list ascii :=
  match l with
  | c :: r => if is_str_whitespace c then trim_start r else l
  | [] => []
  end.

Definition trim (l : list ascii) : list ascii :=
  reverse (trim_start (reverse (trim_start l))).

Definition radix_digit (radix : N) (c : ascii) : option N :=
  d ← hex_value c; if (d <? radix)%N then Some d else None.

Definition radix_literal (radix : N) (l : list ascii) : number :=
  match l, mapM (radix_digit radix) l with
  | _ :: _, Some ds =>
      Fin (inject_Z (Z.of_N (foldl (λ acc d, acc * radix + d)%N 0%N ds)))
  | _, _ => NaN
  end.

Definition unsigned_decimal (l : list ascii) : option Q :=
  let '(int, l) := span_digits l in
  let '(frac, l) :=
    match l with
    | "."%char :: r => span_digits r
    | _ => ([], l)
    end in
  if bool_decide (int = [] ∧ frac = []) then None
  else
    let '(e, l) :=
      match exponent l with Some (e, rest) => (e, rest) | None => (0%Z, l) end in
    match l with
    | [] => Some (decimal_value int frac e)
    | _ => None
    end.

Definition signed_decimal (l : list ascii) : number :=
  let '(negative, l) :=
    match l with
    | "+"%char :: r => (false, r)
    | "-"%char :: r => (true, r)
    | _ => (false, l)
    end in
  if bool_decide (l = list_ascii_of_string "Infinity") then Inf (negb negative)
  else
    match unsigned_decimal l with
    | Some q => Fin (if negative then Qred (- q) else q)
    | None => NaN
    end.

Definition StringToNumber (s : string) : number :=
  match trim (list_ascii_of_string s) with
  | [] => Fin 0
  | "0"%char :: x :: r =>
      if bool_decide (x = "x"%char ∨ x = "X"%char) then radix_literal 16 r
      else if bool_decide (x = "o"%char ∨ x = "O"%char) then radix_literal 8 r
      else if bool_decide (x = "b"%char ∨ x = "B"%char) then radix_literal 2 r
      else signed_decimal ("0"%char :: x :: r)
  | l => signed_decimal l
  end.

Definition platform : Platform := {|
  JS.atob := atob;
  JS.decodeURIComponent := decodeURIComponent;
  JS.encodeURIComponent := encodeURIComponent;
  JS.JSON_parse := JSON_parse;
  JS.ToPrimitive := ToString;
  JS.StringToNumber := StringToNumber;
  JS.NumberToString := NumberToString;
|}.

(** A JSON text written with ['] for its double quotes *)
Definition json (s : string) : string := replace_all "'" (ascii_of_N 34) s.

End Demo.

(** ** Vocabulary of the statements *)

Module TokenSpec.
Import JS Token.

(** The keys of the environment writes among some events, in order *)
Definition written_keys (evs : list Event) : list string :=
  omap (λ ev, match ev with EvEnvSet k _ => Some k | _ => None end) evs.

(** The environment after the writes among some events *)
Definition replay (evs : list Event) (env : gmap string JVal) : gmap string JVal :=
  foldl (λ env ev, match ev with EvEnvSet k v => <[k := v]> env | _ => env end)
    env evs.

(** [w'] is [w] after the events [evs]. *)
Definition extends (w w' : World) (evs : list Event) : Prop :=
  trace w' = trace w ++ evs ∧ environment w' = replay evs (environment w).

(** A computation that writes no environment variable and leaves the
    instance as it was *)
Definition quiet {A} (m : M A) : Prop :=
  ∀ w, ∃ evs, extends w (m w).2 evs ∧ written_keys evs = [] ∧ this (m w).2 = this w.

Definition with_tokens (t r : JVal) (w : World) : World :=
  {| environment := environment w; this := {| token := t; refreshToken := r |};
     trace := trace w |}.

Definition env_write (k : string) (v : JVal) (w : World) : World :=
  emit (EvEnvSet k v)
    {| environment := <[k := v]> (environment w); this := this w; trace := trace w |}.

(** [token.split('.')[0]] *)
Definition first_segment (t : string) : string := default "" (head (split "." t)).

Section Script.
Context {platform : Platform} {host : Host}.
Variable config : Config.

(** The value of the condition of the first [if] of [getAccessToken] *)
Definition guard (w : World) : Completion bool := (cached_token_usable w).1.

(** The parsed JSON body of the answer of the token endpoint to the request
    of [refreshAccessToken] *)
Definition refresh_response (w : World) : Completion JVal :=
  body ← constructRequestBody
           [ ("client_id", client_id config);
             ("grant_type", JStr "refresh_token");
             ("refresh_token", refreshToken (this w)) ];
  tokenResponse ← explorer_fetch (trace w) (token_endpoint ENDPOINTS)
    {| method := "POST";
       headers := [("Content-Type", "application/x-www-form-urlencoded")];
       body := body |};
  JSON_parse (response_body tokenResponse).

(** The parameters of the OAuth2 request of [retrieveNewTokens] *)
Definition authorize_params : list (string * JVal) :=
  [ ("client_id", client_id config); ("state", state config);
    ("scope", scope config); ("response_type", response_type config);
    ("code_challenge_method", code_challenge_method config);
    ("code_challenge", code_challenge config) ].

Definition logged_failure (e : Exn) (w : World) : World :=
  emit (EvConsoleError "Failed to refresh access token:" e) w.

(** The errors that leave [getAccessToken]: [escapes w e w'] when an error
    [e] is raised outside the two [try] blocks, in world [w']. *)
Inductive escapes (w : World) : Exn → World → Prop :=
| escapes_guard e :
    ToBoolean (token (this w)) = true →
    isTokenExpired (token (this w)) (Date_now (trace w)) = Throw e →
    escapes w e w
| escapes_retrieve e w' :
    guard w = Normal false →
    ToBoolean (refreshToken (this w)) = false →
    retrieveNewTokens config w = (Throw e, w') →
    escapes w e w'
| escapes_retrieve_after_refresh e1 w1 e w' :
    guard w = Normal false →
    ToBoolean (refreshToken (this w)) = true →
    refreshAccessToken config w = (Throw e1, w1) →
    retrieveNewTokens config (logged_failure e1 w1) = (Throw e, w') →
    escapes w e w'.

End Script.

End TokenSpec.

Module BrowserSpec.
Import JS Browser.

(** The keys read from storage among some effects, in order *)
Definition storage_reads (evs : list Effect) : list string :=
  omap (λ e, match e with GetItem k => Some k | _ => None end) evs.

(** The storage writes among some effects, in order *)
Definition storage_writes (evs : list Effect) : list (string * string) :=
  omap (λ e, match e with SetItem k v => Some (k, v) | _ => None end) evs.

(** The storage after some writes *)
Definition stored (writes : list (string * string)) (m : gmap string string)
  : gmap string string :=
  foldl (λ m kv, <[kv.1 := kv.2]> m) m writes.

(** The value written last under [key], when there is one *)
Definition last_write (key : string) (writes : list (string * string)) : option string :=
  last (omap (λ kv, if String.eqb kv.1 key then Some kv.2 else None) writes).

(** [b'] is [b] after the effects [evs]. *)
Definition after (b b' : State) (evs : list Effect) : Prop :=
  log b' = log b ++ evs
  ∧ localStorage b' = stored (storage_writes evs) (localStorage b).

(** A write of the scroll hook: a number under the one key *)
Definition scroll_write `{!Platform} (kv : string * string) : Prop :=
  kv.1 = "scrollPosition" ∧ ∃ y, kv.2 = NumberToString y.

End BrowserSpec.

(** ** Concrete inputs *)

Module TokenDemo.
Import JS Token.

(** A token whose header is [{"typ":"JWT","alg":"HS256"}] and whose payload
    is [{"exp":4102444800}] *)
Definition jwt : string :=
  "eyJ0eXAiOiJKV1QiLCJhbGciOiJIUzI1NiJ9.eyJleHAiOjQxMDI0NDQ4MDB9.c2ln".

(** The same payload behind a header that decodes to [not json] *)
Definition bad_header_jwt : string := "bm90IGpzb24.eyJleHAiOjQxMDI0NDQ4MDB9.c2ln".

Definition config : Config := {|
  client_id := JStr "0f1e2d3c";
  tenant_id := JStr "contoso";
  state := JStr "sandbox";
  scope := JStr "api://0f1e2d3c/.default offline_access";
  response_type := JStr "code";
  code_challenge_method := JStr "S256";
  code_challenge := JStr "E9Melhoa2OwvFrEMTJguCHaoeK1t8URWbuGJSstw-cM";
  code_verifier := JStr "dBjftJeZ4CVP-mB92K27uhbUJU1p1r_wW1gFWFOEjXk";
  redirect_uri := JStr "https://studio.apollographql.com/explorer-oauth2";
|}.

Definition authorized (tr : list Event) : bool :=
  existsb (λ ev, match ev with EvOAuth2Request _ _ => true | _ => false end) tr.

(** A host at time 1700000000000.  Its token endpoint answers with
    [refresh_answer] before the user has authorized, and with new tokens
    after; the user always authorizes. *)
Definition host (refresh_answer : Completion string) : Host := {|
  explorer_fetch tr _ _ :=
    if authorized tr then
      Normal {| response_body := Demo.json "{'access_token':'A2','refresh_token':'R2'}" |}
    else (λ b, {| response_body := b |}) <$> refresh_answer;
  explorer_oauth2Request _ _ _ := Normal (JObj [("code", JStr "c0de")]);
  Date_now _ := 1700000000000;
|}.

Definition invalid_grant : Completion string :=
  Normal (Demo.json "{'error':'invalid_grant'}").

Definition offline : Completion string := Throw (Rejection "Failed to fetch").

(** The world of an instance just constructed from the environment *)
Definition world (token refresh_token : JVal) : World := {|
  environment := {[ "token" := token; "refresh_token" := refresh_token ]};
  this := {| token := token; refreshToken := refresh_token |};
  trace := [];
|}.

End TokenDemo.

Module BrowserDemo.
Import JS Browser.

(** A page whose body holds the [div] of [Comments], at path [[0; 0]] *)
Definition page (storage : gmap string string) : State := {|
  localStorage := storage;
  scrollY := number_of_Z 0;
  scroll_listeners := [];
  next_closure := 0;
  document :=
    Element "html" [] false [Element "body" [] false [Element "div" [] false []]];
  now := 1700000000000;
  log := [];
|}.

End BrowserDemo.

(** ** Vocabulary of the further statements *)

Module TokenMore.
Import JS Token TokenSpec.

(** The instance holds what the environment holds. *)
Definition mirrors (w : World) : Prop :=
  token (this w) = environment_get (environment w) "token"
  ∧ refreshToken (this w) = environment_get (environment w) "refresh_token".

Definition is_fetch (ev : Event) : bool :=
  match ev with EvFetch _ _ => true | _ => false end.

Definition is_oauth2Request (ev : Event) : bool :=
  match ev with EvOAuth2Request _ _ => true | _ => false end.

Definition is_console_error (ev : Event) : bool :=
  match ev with EvConsoleError _ _ => true | _ => false end.

(** How many of the events satisfy [p] *)
Definition count (p : Event → bool) (evs : list Event) : nat :=
  length (filter (λ ev, p ev = true) evs).

(** A computation that makes at most [f] fetches and [o] OAuth2 requests,
    and logs no error *)
Definition requests_at_most {A} (f o : nat) (m : M A) : Prop :=
  ∀ w, ∃ evs, trace (m w).2 = trace w ++ evs
              ∧ (count is_fetch evs ≤ f)%nat
              ∧ (count is_oauth2Request evs ≤ o)%nat
              ∧ count is_console_error evs = 0%nat.

(** A token of three segments *)
Definition three_segments (header payload signature : string) : string :=
  header +:+ "." +:+ payload +:+ "." +:+ signature.

Section Script.
Context {platform : Platform} {host : Host}.
Variable config : Config.

(** The parsed JSON body of the answer of the token endpoint to the request
    of [retrieveNewTokens], after the authorization *)
Definition retrieve_response (w : World) : Completion JVal :=
  authorization ← explorer_oauth2Request (trace w) (authorize ENDPOINTS)
                    (authorize_params config);
  code ← get_prop authorization "code";
  body ← constructRequestBody
           [ ("client_id", client_id config);
             ("tenant_id", tenant_id config);
             ("code", code);
             ("code_verifier", code_verifier config);
             ("grant_type", JStr "authorization_code");
             ("redirect_uri", redirect_uri config) ];
  tokenResponse ← explorer_fetch
    (trace w ++ [EvOAuth2Request (authorize ENDPOINTS) (authorize_params config)])
    (token_endpoint ENDPOINTS)
    {| method := "POST";
       headers := [("Content-Type", "application/x-www-form-urlencoded")];
       body := body |};
  JSON_parse (response_body tokenResponse).

(** [key=value] for the fields of a request body *)
Definition field (key value : string) : string := key +:+ "=" +:+ value.

End Script.

End TokenMore.

Module DecodeMore.
Import JS Token.

(** The two hexadecimal digits of a byte, low case *)
Definition two_hex (c : ascii) : string :=
  String (hex_digit (charCodeAt0 c / 16)) (String (hex_digit (charCodeAt0 c mod 16)) "").

Definition is_ascii_text (s : string) : Prop :=
  Forall (λ c, (N_of_ascii c < 128)%N) (list_ascii_of_string s).

End DecodeMore.

Module BrowserMore.
Import JS Browser.

Definition is_scroll (a : Action) : bool :=
  match a with Scroll _ => true | _ => false end.

(** The closures registered are distinct and older than the next one. *)
Definition fresh_closures (b : State) : Prop :=
  Forall (λ c, (c < next_closure b)%nat) (scroll_listeners b)
  ∧ NoDup (scroll_listeners b).

(** Two paths that part at some point, the first to a smaller child index:
    the first node comes before the second in tree order and neither is
    inside the other. *)
Definition precedes (q p : list nat) : Prop :=
  ∃ common i j q' p',
    q = common ++ i :: q' ∧ p = common ++ j :: p' ∧ (i < j)%nat.

(** [n] without its children *)
Definition emptied (n : Node) : Node :=
  let 'Element t a s _ := n in Element t a s [].

End BrowserMore.

(** ** The script that generates the PKCE values *)

Module NodeScript.
Import JS.

(** [s.replace(/a/g, '')] for a single character *)
Fixpoint remove_all (a : ascii) (s : string) : string :=
  match s with
  | "" => ""
  | String c r => if Ascii.eqb c a then remove_all a r else String c (remove_all a r)
  end.

(** [base64URLEncode(str)]; [toString_base64 str] is [str.toString('base64')]. *)
Definition base64URLEncode (toString_base64 : string → string) (str : string) : string :=
  remove_all "=" (replace_all "/" "_" (replace_all "+" "-" (toString_base64 str))).

(** [Buffer.prototype.toString('base64')]: the standard alphabet, with
    padding; a buffer is the string of its bytes. *)
Definition base64_char (n : N) : ascii :=
  default "A"%char
    (list_ascii_of_string
       "ABCDEFGHIJKLMNOPQRSTUVWXYZabcdefghijklmnopqrstuvwxyz0123456789+/"
     !! N.to_nat n).

Fixpoint encode_groups (l : list N) : list ascii :=
  match l with
  | a :: b :: c :: r =>
      base64_char (a / 4) :: base64_char (a mod 4 * 16 + b / 16)
      :: base64_char (b mod 16 * 4 + c / 64) :: base64_char (c mod 64)
      :: encode_groups r
  | [a; b] =>
      [base64_char (a / 4); base64_char (a mod 4 * 16 + b / 16);
       base64_char (b mod 16 * 4); "="%char]
  | [a] => [base64_char (a / 4); base64_char (a mod 4 * 16); "="%char; "="%char]
  | [] => []
  end%N.

Definition toString_base64 (buffer : string) : string :=
  string_of_list_ascii (encode_groups (N_of_ascii <$> list_ascii_of_string buffer)).

(** The characters of a PKCE code verifier that base64url can produce *)
Definition is_url_char (c : ascii) : bool :=
  Demo.in_range 65 90 c || Demo.in_range 97 122 c || Demo.is_digit c
  || Ascii.eqb c "-" || Ascii.eqb c "_".

(** What the two replacements of [base64URLEncode] do to one character *)
Definition url_subst (c : ascii) : ascii :=
  let c := if Ascii.eqb c "+" then "-"%char else c in
  if Ascii.eqb c "/" then "_"%char else c.

End NodeScript.

Module MoreDemo.
Import JS Token Browser TokenDemo BrowserDemo.

(** A host at time 1700000000000 with given answers: of the user to the
    OAuth2 dialog, of the token endpoint to a refresh, and of the token
    endpoint to the authorization code. *)
Definition host_with (authorization : Completion JVal)
    (refresh_answer exchange_answer : Completion string) : Host := {|
  explorer_fetch tr _ _ :=
    (λ b, {| response_body := b |})
      <$> (if authorized tr then exchange_answer else refresh_answer);
  explorer_oauth2Request _ _ _ := authorization;
  Date_now _ := 1700000000000;
|}.

Definition granted : Completion JVal := Normal (JObj [("code", JStr "c0de")]).

Definition declined : Completion JVal := Throw (Rejection "access_denied").

(** The answer of the token endpoint that carries [jwt] *)
Definition tokens_with_jwt : Completion string :=
  Normal (Demo.json ("{'access_token':'" +:+ jwt +:+ "','refresh_token':'R2'}")).

(** A token like [jwt] whose payload is [{"exp":1}] *)
Definition expired_jwt : string :=
  "eyJ0eXAiOiJKV1QiLCJhbGciOiJIUzI1NiJ9.eyJleHAiOjF9.c2ln".

Definition bad_code : Completion string :=
  Normal (Demo.json "{'error':'invalid_grant','error_description':'AADSTS70008'}").

(** A page with two [div]s for two [Comments], at paths [[0; 0]] and
    [[0; 1]] *)
Definition two_boxes : State := {|
  localStorage := ∅;
  scrollY := number_of_Z 0;
  scroll_listeners := [];
  next_closure := 0;
  document :=
    Element "html" [] false
      [Element "body" [] false [Element "div" [] false []; Element "div" [] false []]];
  now := 1700000000000;
  log := [];
|}.

End MoreDemo.

(** ** Theorems on the token helper *)

Section TokenTheory.
Import JS Token TokenSpec.
Context {platform : Platform} {host : Host}.
Variable config : Config.

(** *** Events and the environment *)

Lemma extends_refl w : extends w w [].
Proof. split; [by rewrite app_nil_r | done]. Qed.

Lemma extends_trans w w1 w2 e1 e2 :
  extends w w1 e1 → extends w1 w2 e2 → extends w w2 (e1 ++ e2).
Proof.
  intros [Ht1 He1] [Ht2 He2]. split.
  - by rewrite Ht2, Ht1, app_assoc.
  - unfold replay in *. by rewrite foldl_app, <- He1.
Qed.

Lemma written_keys_app e1 e2 :
  written_keys (e1 ++ e2) = written_keys e1 ++ written_keys e2.
Proof. apply omap_app. Qed.

Lemma extends_env_write k v w : extends w (env_write k v w) [EvEnvSet k v].
Proof. by split. Qed.

Lemma extends_with_tokens t r w : extends w (with_tokens t r w) [].
Proof. split; [by rewrite app_nil_r | done]. Qed.

Lemma extends_logged_failure e w :
  extends w (logged_failure e w) [EvConsoleError "Failed to refresh access token:" e].
Proof. by split. Qed.

(** A key that is not written keeps its value. *)
Lemma replay_lookup_other evs env k :
  k ∉ written_keys evs → replay evs env !! k = env !! k.
Proof.
  revert env. induction evs as [|ev evs IH]; intros env Hk; [done|].
  unfold replay in *. simpl. destruct ev as [| |k' v|]; simpl in Hk; try by apply IH.
  apply not_elem_of_cons in Hk as [Hne Hk].
  rewrite IH by done. by apply lookup_insert_ne.
Qed.

(** *** Quiet computations *)

Lemma quiet_ret {A} (a : A) : quiet (mret a).
Proof. intros w. exists []. split; [apply extends_refl | done]. Qed.

Lemma quiet_lift {A} (c : Completion A) : quiet (lift c).
Proof. intros w. exists []. split; [apply extends_refl | done]. Qed.

Lemma quiet_get_this : quiet get_this.
Proof. intros w. exists []. split; [apply extends_refl | done]. Qed.

Lemma quiet_fetch url init : quiet (fetch url init).
Proof. intros w. exists [EvFetch url init]. by repeat split. Qed.

Lemma quiet_oauth2Request url params : quiet (oauth2Request url params).
Proof. intros w. exists [EvOAuth2Request url params]. by repeat split. Qed.

Lemma quiet_bind {A B} (m : M A) (f : A → M B) :
  quiet m → (∀ a, quiet (f a)) → quiet (m ≫= f).
Proof.
  intros Hm Hf w. destruct (Hm w) as (e1 & Hx1 & Hk1 & Ht1).
  unfold mbind, M_bind. destruct (m w) as [[a|e] w1]; simpl in *.
  - destruct (Hf a w1) as (e2 & Hx2 & Hk2 & Ht2).
    exists (e1 ++ e2). split; [by eapply extends_trans|].
    split; [by rewrite written_keys_app, Hk1, Hk2 | congruence].
  - by exists e1.
Qed.

Ltac quiet_steps :=
  repeat first
    [ apply quiet_bind; [|intros ?]
    | apply quiet_get_this | apply quiet_lift | apply quiet_fetch
    | apply quiet_oauth2Request | apply quiet_ret | case_match ].

Lemma quiet_refreshAccessToken : quiet (refreshAccessToken config).
Proof. unfold refreshAccessToken. quiet_steps. Qed.

Lemma quiet_retrieveNewTokens : quiet (retrieveNewTokens config).
Proof. unfold retrieveNewTokens. quiet_steps. Qed.

(** *** The paths of [getAccessToken] *)

Lemma cached_token_usable_state w : cached_token_usable w = (guard w, w).
Proof. reflexivity. Qed.

Lemma store_new_tokens_throw w e w1 :
  retrieveNewTokens config w = (Throw e, w1) →
  store_new_tokens config w = (Throw e, w1).
Proof. intros Hr. unfold store_new_tokens, mbind, M_bind. by rewrite Hr. Qed.

Lemma store_new_tokens_normal w a r w1 :
  retrieveNewTokens config w = (Normal (a, r), w1) →
  store_new_tokens config w =
    (Normal a, env_write "refresh_token" r (env_write "token" a (with_tokens a r w1))).
Proof. intros Hr. unfold store_new_tokens, mbind, M_bind. by rewrite Hr. Qed.

Lemma getAccessToken_guard_throw w e :
  guard w = Throw e → getAccessToken config w = (Throw e, w).
Proof.
  intros Hg. unfold getAccessToken, mbind, M_bind.
  by rewrite cached_token_usable_state, Hg.
Qed.

Lemma getAccessToken_guard_true w :
  guard w = Normal true → getAccessToken config w = (Normal (token (this w)), w).
Proof.
  intros Hg. unfold getAccessToken, mbind, M_bind.
  by rewrite cached_token_usable_state, Hg.
Qed.

Lemma getAccessToken_no_refresh w :
  guard w = Normal false → ToBoolean (refreshToken (this w)) = false →
  getAccessToken config w = store_new_tokens config w.
Proof.
  intros Hg Hr. unfold getAccessToken, mbind at 1, M_bind at 1.
  rewrite cached_token_usable_state, Hg.
  unfold mbind, M_bind; simpl. by rewrite Hr.
Qed.

Lemma getAccessToken_refreshed w t w1 :
  guard w = Normal false → ToBoolean (refreshToken (this w)) = true →
  refreshAccessToken config w = (Normal t, w1) →
  getAccessToken config w =
    (Normal t, env_write "token" t (with_tokens t (refreshToken (this w1)) w1)).
Proof.
  intros Hg Hr Ht. unfold getAccessToken, mbind at 1, M_bind at 1.
  rewrite cached_token_usable_state, Hg.
  unfold mbind, M_bind; simpl. rewrite Hr.
  unfold try_catchM, refresh_and_store, mbind, M_bind. by rewrite Ht.
Qed.

Lemma getAccessToken_refresh_throw w e w1 :
  guard w = Normal false → ToBoolean (refreshToken (this w)) = true →
  refreshAccessToken config w = (Throw e, w1) →
  getAccessToken config w = store_new_tokens config (logged_failure e w1).
Proof.
  intros Hg Hr Ht. unfold getAccessToken, mbind at 1, M_bind at 1.
  rewrite cached_token_usable_state, Hg.
  unfold mbind, M_bind; simpl. rewrite Hr.
  unfold try_catchM, refresh_and_store, mbind, M_bind. by rewrite Ht.
Qed.

(** The guard, from its three parts. *)
Lemma guard_cases w :
  guard w =
    if ToBoolean (token (this w)) then
      match isTokenExpired (token (this w)) (Date_now (trace w)) with
      | Throw e => Throw e
      | Normal true => Normal false
      | Normal false => isValidTokenHeader (token (this w))
      end
    else Normal false.
Proof.
  unfold guard, cached_token_usable; simpl.
  destruct (ToBoolean _); [|done].
  by destruct (isTokenExpired _ _) as [[]|].
Qed.

Lemma isValidTokenHeader_normal t : ∃ b, isValidTokenHeader t = Normal b.
Proof.
  unfold isValidTokenHeader, try_catch.
  destruct (isValidTokenHeader_try t); eauto.
Qed.

Lemma guard_throw_iff w e :
  guard w = Throw e ↔
    ToBoolean (token (this w)) = true ∧
    isTokenExpired (token (this w)) (Date_now (trace w)) = Throw e.
Proof.
  rewrite guard_cases. destruct (ToBoolean _); [|by split; [|intros []]].
  destruct (isTokenExpired _ _) as [[]|e'].
  - by split; [|intros []].
  - destruct (isValidTokenHeader_normal (token (this w))) as [b ->].
    by split; [|intros []].
  - split; [by intros [= ->] | by intros [_ ?]].
Qed.

Lemma oauth2Request_first {B} url params (f : JVal → M B) w :
  (∀ a, quiet (f a)) →
  ∃ evs, trace ((oauth2Request url params ≫= f) w).2 =
           trace w ++ EvOAuth2Request url params :: evs.
Proof.
  intros Hf. unfold mbind, M_bind, oauth2Request.
  destruct (explorer_oauth2Request _ _ _) as [a|e]; [|by exists []].
  destruct (Hf a (emit (EvOAuth2Request url params) w)) as (evs & [Htr _] & _).
  exists evs. rewrite Htr. simpl. by rewrite <- app_assoc.
Qed.

(** [retrieveNewTokens] starts with the OAuth2 request. *)
Lemma retrieveNewTokens_trace w :
  ∃ evs, trace (retrieveNewTokens config w).2 =
           trace w ++ EvOAuth2Request (authorize ENDPOINTS) (authorize_params config) :: evs.
Proof.
  unfold retrieveNewTokens. apply oauth2Request_first. intros a. quiet_steps.
Qed.

Lemma store_new_tokens_trace w :
  ∃ evs, trace (store_new_tokens config w).2 =
           trace w ++ EvOAuth2Request (authorize ENDPOINTS) (authorize_params config) :: evs.
Proof.
  destruct (retrieveNewTokens_trace w) as [evs Htr].
  destruct (retrieveNewTokens config w) as [[[a r]|e] w1] eqn:Hn.
  - rewrite (store_new_tokens_normal _ _ _ _ Hn). simpl in *.
    exists (evs ++ [EvEnvSet "token" a; EvEnvSet "refresh_token" r]).
    rewrite Htr. by rewrite <- !app_assoc.
  - rewrite (store_new_tokens_throw _ _ _ Hn). by exists evs.
Qed.


(** *** The claims *)

(** C8.  When the token of the instance is truthy, is not expired and has a
    valid header, [getAccessToken] returns it and leaves the world as it
    was: no request is made (the trace is unchanged) and no environment
    variable is written. *)
Theorem getAccessToken_cached w :
  ToBoolean (token (this w)) = true →
  isTokenExpired (token (this w)) (Date_now (trace w)) = Normal false →
  isValidTokenHeader (token (this w)) = Normal true →
  getAccessToken config w = (Normal (token (this w)), w).
Proof.
  intros Ht He Hv. apply getAccessToken_guard_true.
  by rewrite guard_cases, Ht, He.
Qed.

(** C1.  When the refresh is attempted (the cached token is not usable and
    the refresh token is truthy) and [refreshAccessToken] throws [e], the
    error is logged with [console.error] and [getAccessToken] goes on as
    [retrieveNewTokens] and the statements after it do: it requests new
    tokens (the next event is the OAuth2 request), returns the new access
    token whenever [retrieveNewTokens] returns, and an error that leaves it
    is one raised by [retrieveNewTokens]. *)
Theorem getAccessToken_refresh_failure w e w1 :
  guard w = Normal false →
  ToBoolean (refreshToken (this w)) = true →
  refreshAccessToken config w = (Throw e, w1) →
  let w2 := logged_failure e w1 in
  getAccessToken config w = store_new_tokens config w2
  ∧ trace w2 = trace w1 ++ [EvConsoleError "Failed to refresh access token:" e]
  ∧ (∃ params evs,
       trace (getAccessToken config w).2 =
         trace w2 ++ EvOAuth2Request (authorize ENDPOINTS) params :: evs)
  ∧ (∀ tokens w3, retrieveNewTokens config w2 = (Normal tokens, w3) →
       (getAccessToken config w).1 = Normal tokens.1)
  ∧ (∀ e', (getAccessToken config w).1 = Throw e' →
       (retrieveNewTokens config w2).1 = Throw e').
Proof.
  intros Hg Hr Ht w2.
  pose proof (getAccessToken_refresh_throw w e w1 Hg Hr Ht) as Hget.
  fold w2 in Hget. rewrite Hget. split_and!; [done | done | | |].
  - destruct (store_new_tokens_trace w2) as [evs Htr]. eauto.
  - intros [a r] w3 Hn. by rewrite (store_new_tokens_normal _ _ _ _ Hn).
  - intros e' He'. destruct (retrieveNewTokens config w2) as [[[a r]|e''] w3] eqn:Hn.
    + rewrite (store_new_tokens_normal _ _ _ _ Hn) in He'. discriminate He'.
    + rewrite (store_new_tokens_throw _ _ _ Hn) in He'.
      simpl in He'. by injection He' as ->.
Qed.


(** C4.  One call of [getAccessToken] writes at most two environment
    variables, only [token] and [refresh_token] (nothing, [token], or
    [token] then [refresh_token]), and every other variable keeps its
    value. *)
Theorem getAccessToken_environment_writes w :
  ∃ evs,
    trace (getAccessToken config w).2 = trace w ++ evs
    ∧ (written_keys evs = [] ∨ written_keys evs = ["token"]
       ∨ written_keys evs = ["token"; "refresh_token"])
    ∧ (length (written_keys evs) ≤ 2)%nat
    ∧ (∀ k, k ∈ written_keys evs → k = "token" ∨ k = "refresh_token")
    ∧ (∀ k, k ≠ "token" → k ≠ "refresh_token" →
         environment (getAccessToken config w).2 !! k = environment w !! k).
Proof.
  cut (∃ evs, extends w (getAccessToken config w).2 evs
         ∧ (written_keys evs = [] ∨ written_keys evs = ["token"]
            ∨ written_keys evs = ["token"; "refresh_token"])).
  { intros (evs & [Htr Henv] & Hk). exists evs.
    split_and!; [done | done | | |].
    - destruct Hk as [-> | [-> | ->]]; simpl; lia.
    - intros k Hin. destruct Hk as [Hk | [Hk | Hk]]; rewrite Hk in Hin;
        repeat (apply elem_of_cons in Hin as [-> | Hin]; [by auto|]);
        by apply elem_of_nil in Hin.
    - intros k H1 H2. rewrite Henv. apply replay_lookup_other.
      intros Hin. destruct Hk as [Hk | [Hk | Hk]]; rewrite Hk in Hin;
        repeat (apply elem_of_cons in Hin as [-> | Hin]; [done|]);
        by apply elem_of_nil in Hin. }
  assert (∀ w0, ∃ evs, extends w0 (store_new_tokens config w0).2 evs
            ∧ (written_keys evs = [] ∨ written_keys evs = ["token"; "refresh_token"]))
    as Hstore.
  { intros w0. destruct (quiet_retrieveNewTokens w0) as (evs & Hx & Hk & _).
    destruct (retrieveNewTokens config w0) as [[[a r]|e] w1] eqn:Hn.
    - rewrite (store_new_tokens_normal _ _ _ _ Hn).
      exists (evs ++ [] ++ [EvEnvSet "token" a] ++ [EvEnvSet "refresh_token" r]).
      split.
      + eapply extends_trans; [done|]. eapply extends_trans; [apply extends_with_tokens|].
        eapply extends_trans; apply extends_env_write.
      + right. rewrite written_keys_app, Hk. done.
    - rewrite (store_new_tokens_throw _ _ _ Hn). exists evs. by split; [|left]. }
  destruct (guard w) as [[]|e] eqn:Hg.
  - rewrite (getAccessToken_guard_true _ Hg). exists []. split; [apply extends_refl | by left].
  - destruct (ToBoolean (refreshToken (this w))) eqn:Hr.
    + destruct (quiet_refreshAccessToken w) as (evs & Hx & Hk & _).
      destruct (refreshAccessToken config w) as [[t|e] w1] eqn:Ht.
      * rewrite (getAccessToken_refreshed _ _ _ Hg Hr Ht).
        exists (evs ++ [] ++ [EvEnvSet "token" t]). split.
        -- eapply extends_trans; [done|].
           eapply extends_trans; [apply extends_with_tokens | apply extends_env_write].
        -- right; left. by rewrite written_keys_app, Hk.
      * rewrite (getAccessToken_refresh_throw _ _ _ Hg Hr Ht).
        destruct (Hstore (logged_failure e w1)) as (evs' & Hx' & Hk').
        exists (evs ++ [EvConsoleError "Failed to refresh access token:" e] ++ evs').
        split.
        -- eapply extends_trans; [done|].
           eapply extends_trans; [apply extends_logged_failure | done].
        -- rewrite !written_keys_app, Hk. simpl.
           destruct Hk' as [-> | ->]; [by left | by right; right].
    + rewrite (getAccessToken_no_refresh _ Hg Hr).
      destruct (Hstore w) as (evs & Hx & [Hk | Hk]); exists evs; auto.
  - rewrite (getAccessToken_guard_throw _ _ Hg). exists []. split; [apply extends_refl | by left].
Qed.

(** C5, as it holds.  An error leaves [getAccessToken] exactly when it is
    raised by [isTokenExpired] in the first condition or by
    [retrieveNewTokens]; the errors of the refresh attempt and of the
    decoding in [isValidTokenHeader] are caught by the two [try] blocks, so
    they never leave. *)
Theorem getAccessToken_throws_iff w e w' :
  getAccessToken config w = (Throw e, w') ↔ escapes config w e w'.
Proof.
  split.
  - intros Hget. destruct (guard w) as [[]|e0] eqn:Hg.
    + by rewrite (getAccessToken_guard_true _ Hg) in Hget.
    + destruct (ToBoolean (refreshToken (this w))) eqn:Hr.
      * destruct (refreshAccessToken config w) as [[t|e1] w1] eqn:Ht.
        -- by rewrite (getAccessToken_refreshed _ _ _ Hg Hr Ht) in Hget.
        -- rewrite (getAccessToken_refresh_throw _ _ _ Hg Hr Ht) in Hget.
           destruct (retrieveNewTokens config (logged_failure e1 w1))
             as [[[a r]|e2] w2] eqn:Hn.
           ++ by rewrite (store_new_tokens_normal _ _ _ _ Hn) in Hget.
           ++ rewrite (store_new_tokens_throw _ _ _ Hn) in Hget.
              injection Hget as -> ->. by eapply escapes_retrieve_after_refresh.
      * rewrite (getAccessToken_no_refresh _ Hg Hr) in Hget.
        destruct (retrieveNewTokens config w) as [[[a r]|e2] w2] eqn:Hn.
        -- by rewrite (store_new_tokens_normal _ _ _ _ Hn) in Hget.
        -- rewrite (store_new_tokens_throw _ _ _ Hn) in Hget.
           injection Hget as -> ->. by apply escapes_retrieve.
    + rewrite (getAccessToken_guard_throw _ _ Hg) in Hget.
      injection Hget as -> ->. apply guard_throw_iff in Hg as [??].
      by apply escapes_guard.
  - intros [e0 Ht He | e0 w0 Hg Hr Hn | e1 w1 e0 w0 Hg Hr Ht Hn].
    + apply getAccessToken_guard_throw. by apply guard_throw_iff.
    + rewrite (getAccessToken_no_refresh _ Hg Hr). by apply store_new_tokens_throw.
    + rewrite (getAccessToken_refresh_throw _ _ _ Hg Hr Ht).
      by apply store_new_tokens_throw.
Qed.


(** *** Tokens and their segments *)

Lemma split_cons sep s : ∃ h r, split sep s = h :: r.
Proof.
  induction s as [|c s (h & r & IH)]; simpl; [by eauto|].
  destruct (Ascii.eqb c sep); [by eauto|]. rewrite IH. by eauto.
Qed.

Lemma split_without sep s :
  sep ∉ list_ascii_of_string s → split sep s = [s].
Proof.
  induction s as [|c s IH]; simpl; [done|]. intros Hsep.
  destruct (Ascii.eqb_spec c sep) as [->|_]; [by destruct Hsep; left|].
  rewrite IH; [done|]. intros ?. by destruct Hsep; right.
Qed.

Lemma strict_eq_string_true v lit : strict_eq_string v lit = true ↔ v = JStr lit.
Proof.
  destruct v; simpl; try by split.
  rewrite String.eqb_eq. split; congruence.
Qed.

Lemma default_undefined_string o s :
  default JUndefined o = JStr s ↔ o = Some (JStr s).
Proof. destruct o; simpl; split; congruence. Qed.

Lemma isValidTokenHeader_try_segment t :
  isValidTokenHeader_try (JStr t) =
    header ← decode_segment (first_segment t);
    typ ← get_prop header "typ";
    if negb (strict_eq_string typ "JWT") then Normal false
    else
      alg ← get_prop header "alg";
      if bool_decide (indexOf ["HS256"; "RS256"] alg = None) then Normal false
      else Normal true.
Proof.
  unfold isValidTokenHeader_try, first_segment.
  by destruct (split_cons "." t) as (h & r & ->).
Qed.

Lemma indexOf_algorithms alg :
  indexOf ["HS256"; "RS256"] alg ≠ None ↔ alg = JStr "HS256" ∨ alg = JStr "RS256".
Proof.
  simpl. destruct (strict_eq_string alg "HS256") eqn:H1.
  { apply strict_eq_string_true in H1. split; [by left | done]. }
  destruct (strict_eq_string alg "RS256") eqn:H2.
  { apply strict_eq_string_true in H2. split; [by right | done]. }
  split; [done|]. intros [Ha | Ha]; apply strict_eq_string_true in Ha; congruence.
Qed.

(** C9.  For every token string, [isValidTokenHeader] returns a boolean:
    [true] exactly when the first segment decodes to a JSON object whose
    [typ] is ['JWT'] and whose [alg] is ['HS256'] or ['RS256'], and [false]
    when the decoding or the parsing throws.  [isTokenExpired] has no such
    protection: on a token without a dot it throws a TypeError, which
    leaves [getAccessToken], where it is called first. *)
Theorem isValidTokenHeader_total (t : string) :
  (∃ b, isValidTokenHeader (JStr t) = Normal b)
  ∧ (isValidTokenHeader (JStr t) = Normal true ↔
       ∃ ps, decode_segment (first_segment t) = Normal (JObj ps)
             ∧ assoc "typ" ps = Some (JStr "JWT")
             ∧ (assoc "alg" ps = Some (JStr "HS256")
                ∨ assoc "alg" ps = Some (JStr "RS256")))
  ∧ (∀ e, decode_segment (first_segment t) = Throw e →
       isValidTokenHeader (JStr t) = Normal false)
  ∧ ("."%char ∉ list_ascii_of_string t →
       (∀ now, isTokenExpired (JStr t) now = Throw TypeError)
       ∧ (∀ w, token (this w) = JStr t → t ≠ "" →
            getAccessToken config w = (Throw TypeError, w))).
Proof.
  split_and!.
  - apply isValidTokenHeader_normal.
  - unfold isValidTokenHeader. rewrite isValidTokenHeader_try_segment.
    destruct (decode_segment (first_segment t)) as [header|e]; simpl.
    2: { split; [done | by intros (? & ? & _)]. }
    destruct header as [| | | | |l|ps]; simpl;
      try (split; [done | by intros (? & ? & _)]).
    destruct (strict_eq_string (default JUndefined (assoc "typ" ps)) "JWT") eqn:Htyp;
      simpl.
    + apply strict_eq_string_true, default_undefined_string in Htyp.
      case_bool_decide as Halg; simpl.
      * split; [done|]. intros (ps' & [= <-] & _ & Ha). exfalso.
        assert (indexOf ["HS256"; "RS256"] (default JUndefined (assoc "alg" ps)) ≠ None)
          as Hne; [|done].
        apply indexOf_algorithms.
        destruct Ha as [-> | ->]; [by left | by right].
      * split; [|done]. intros _. exists ps. split_and!; [done | done |].
        apply indexOf_algorithms in Halg.
        by rewrite !default_undefined_string in Halg.
    + split; [done|]. intros (ps' & [= <-] & Ht & _). rewrite Ht in Htyp. done.
  - intros e He. unfold isValidTokenHeader.
    by rewrite isValidTokenHeader_try_segment, He.
  - intros Hdot.
    assert (∀ now, isTokenExpired (JStr t) now = Throw TypeError) as Hexp.
    { intros now. unfold isTokenExpired, parseJwt. by rewrite split_without. }
    split; [done|]. intros w Hw Ht. apply getAccessToken_guard_throw.
    apply guard_throw_iff. rewrite Hw. split; [|done].
    simpl. by destruct t.
Qed.


Lemma refreshAccessToken_response w :
  (refreshAccessToken config w).1 =
    (parsed ← refresh_response config w;
     access_token ← get_prop parsed "access_token";
     error ← get_prop parsed "error";
     if ToBoolean error then
       Throw (Error "Unable to refresh access token. Refresh token may be expired.")
     else Normal access_token).
Proof.
  unfold refreshAccessToken, refresh_response, mbind, M_bind, Completion_bind,
    get_this, lift, fetch; simpl.
  destruct (constructRequestBody _) as [body|]; [|done]; simpl.
  destruct (explorer_fetch _ _ _) as [resp|]; [|done]; simpl.
  destruct (JSON_parse _) as [parsed|]; [|done]; simpl.
  destruct (get_prop parsed "access_token"); [|done]; simpl.
  destruct (get_prop parsed "error") as [error|]; [|done]; simpl.
  by destruct (ToBoolean error).
Qed.

(** C10, as it holds.  [refreshAccessToken] throws exactly when the request
    or the parsing of its answer throws, when the answer parses to [null],
    or when the parsed answer has a truthy [error] field; otherwise it
    returns the [access_token] field of the parsed answer. *)
Theorem refreshAccessToken_throws_iff w :
  (throws (refreshAccessToken config w).1 = true ↔
     throws (refresh_response config w) = true
     ∨ ∃ parsed, refresh_response config w = Normal parsed
         ∧ (parsed = JNull ∨ parsed = JUndefined
            ∨ ToBoolean (own parsed "error") = true))
  ∧ (∀ v, (refreshAccessToken config w).1 = Normal v →
       ∃ parsed, refresh_response config w = Normal parsed
         ∧ ToBoolean (own parsed "error") = false
         ∧ v = own parsed "access_token").
Proof.
  rewrite refreshAccessToken_response.
  destruct (refresh_response config w) as [parsed|e]; simpl.
  2: { split; [split; [by left | done] | done]. }
  assert (parsed = JNull ∨ parsed = JUndefined
          ∨ get_prop parsed "access_token" = Normal (own parsed "access_token")
            ∧ get_prop parsed "error" = Normal (own parsed "error"))
    as [-> | [-> | [Ha He]]] by (destruct parsed; auto).
  - split; [|done]. split; [|done]. intros _. right. exists JNull. auto.
  - split; [|done]. split; [|done]. intros _. right. exists JUndefined. auto.
  - rewrite Ha, He; simpl.
    destruct (ToBoolean (own parsed "error")) eqn:Herr; simpl.
    + split; [|done]. split; [|done]. intros _. right. exists parsed. auto.
    + split.
      * split; [done|]. intros [? | (p & [= <-] & [-> | [-> | Hp]])]; try done.
        congruence.
      * intros v [= <-]. by exists parsed.
Qed.

End TokenTheory.

(** ** Theorems on the browser side *)

Section BrowserTheory.
Import JS Browser BrowserSpec.
Context {platform : Platform}.

Lemma after_refl b : after b b [].
Proof. split; [by rewrite app_nil_r | done]. Qed.

Lemma storage_writes_app e1 e2 :
  storage_writes (e1 ++ e2) = storage_writes e1 ++ storage_writes e2.
Proof. apply omap_app. Qed.

Lemma storage_reads_app e1 e2 :
  storage_reads (e1 ++ e2) = storage_reads e1 ++ storage_reads e2.
Proof. apply omap_app. Qed.

Lemma after_trans b b1 b2 e1 e2 :
  after b b1 e1 → after b1 b2 e2 → after b b2 (e1 ++ e2).
Proof.
  intros [Hl1 Hs1] [Hl2 Hs2]. split.
  - by rewrite Hl2, Hl1, app_assoc.
  - unfold stored in *. by rewrite storage_writes_app, foldl_app, <- Hs1.
Qed.

Lemma stored_lookup_other writes m k :
  (∀ kv, kv ∈ writes → kv.1 ≠ k) → stored writes m !! k = m !! k.
Proof.
  revert m. induction writes as [|[k' v] writes IH]; intros m Hk; [done|].
  unfold stored in *; simpl. rewrite IH.
  - apply lookup_insert_ne. apply (Hk (k', v)). by left.
  - intros kv Hin. apply Hk. by right.
Qed.

Lemma stored_lookup_last writes m k :
  stored writes m !! k =
    match last_write k writes with Some v => Some v | None => m !! k end.
Proof.
  revert m. induction writes as [|[k' v] writes IH] using rev_ind; intros m; [done|].
  unfold stored, last_write in *. rewrite foldl_app, omap_app; simpl.
  destruct (String.eqb_spec k' k) as [->|Hne]; simpl.
  - by rewrite last_snoc, lookup_insert_eq.
  - rewrite app_nil_r, lookup_insert_ne by done. apply IH.
Qed.

(** *** The scroll hook *)

(** What the effect of the hook does, in full. *)
Lemma useSaveScrollPosition_effect_log b :
  log (useSaveScrollPosition_effect b).2 =
    log b ++ [GetItem "scrollPosition"]
      ++ match localStorage b !! "scrollPosition" with
         | Some s => if negb (String.eqb s "") then [ScrollTo (StringToNumber s) "smooth"] else []
         | None => []
         end
      ++ [AddEventListener "scroll" (next_closure b)].
Proof.
  unfold useSaveScrollPosition_effect; simpl.
  destruct (localStorage b !! "scrollPosition") as [s|]; simpl.
  - destruct (String.eqb s ""); case_bool_decide; simpl; by rewrite <- ?app_assoc.
  - case_bool_decide; simpl; by rewrite <- app_assoc.
Qed.

Lemma useSaveScrollPosition_effect_storage b :
  localStorage (useSaveScrollPosition_effect b).2 = localStorage b.
Proof.
  unfold useSaveScrollPosition_effect; simpl.
  destruct (localStorage b !! "scrollPosition") as [s|]; simpl; [|by case_bool_decide].
  destruct (String.eqb s ""); simpl; by case_bool_decide.
Qed.

Lemma useSaveScrollPosition_effect_closure b :
  (useSaveScrollPosition_effect b).1 = next_closure b.
Proof.
  unfold useSaveScrollPosition_effect; simpl.
  destruct (localStorage b !! "scrollPosition") as [s|]; simpl; [|done].
  by destruct (String.eqb s "").
Qed.

Lemma useSaveScrollPosition_effect_listeners b :
  scroll_listeners (useSaveScrollPosition_effect b).2 =
    if bool_decide (next_closure b ∈ scroll_listeners b) then scroll_listeners b
    else scroll_listeners b ++ [next_closure b].
Proof.
  unfold useSaveScrollPosition_effect; simpl.
  destruct (localStorage b !! "scrollPosition") as [s|]; simpl; [|by case_bool_decide].
  destruct (String.eqb s ""); simpl; by case_bool_decide.
Qed.

(** A scroll event, listener by listener. *)
Lemma save_all_spec (l : list nat) b :
  let b' := foldl (λ b _, saveScrollPosition b) b l in
  log b' = log b ++ replicate (length l) (SetItem "scrollPosition" (NumberToString (scrollY b)))
  ∧ localStorage b' =
      (if l is [] then localStorage b
       else <["scrollPosition" := NumberToString (scrollY b)]> (localStorage b))
  ∧ scrollY b' = scrollY b ∧ scroll_listeners b' = scroll_listeners b
  ∧ next_closure b' = next_closure b ∧ document b' = document b ∧ now b' = now b.
Proof.
  revert b. induction l as [|c l IH]; intros b; simpl.
  { by rewrite app_nil_r. }
  destruct (IH (saveScrollPosition b)) as (Hl & Hs & Hy & Hls & Hn & Hd & Ht).
  simpl in *. rewrite Hl, Hs, Hy, Hls, Hn, Hd, Ht. split_and!; try done.
  - by rewrite <- app_assoc.
  - destruct l; [done|]. by rewrite insert_insert_eq.
Qed.

Lemma scroll_event_spec y b :
  log (scroll_event y b) =
    log b ++ replicate (length (scroll_listeners b)) (SetItem "scrollPosition" (NumberToString y))
  ∧ localStorage (scroll_event y b) =
      (if scroll_listeners b is [] then localStorage b
       else <["scrollPosition" := NumberToString y]> (localStorage b))
  ∧ scroll_listeners (scroll_event y b) = scroll_listeners b.
Proof.
  unfold scroll_event.
  destruct (save_all_spec (scroll_listeners b) (with_scrollY y b))
    as (Hl & Hs & _ & Hls & _).
  by split_and!.
Qed.


Lemma useSaveScrollPosition_cleanup_spec closure b :
  log (useSaveScrollPosition_cleanup closure b) =
    log b ++ [RemoveEventListener "scroll" closure]
  ∧ localStorage (useSaveScrollPosition_cleanup closure b) = localStorage b
  ∧ scroll_listeners (useSaveScrollPosition_cleanup closure b) =
      filter (λ g, g ≠ closure) (scroll_listeners b).
Proof. done. Qed.

Lemma Comments_effect_frame commentBox b :
  log (Comments_effect commentBox b).2 = log b
  ∧ localStorage (Comments_effect commentBox b).2 = localStorage b
  ∧ scroll_listeners (Comments_effect commentBox b).2 = scroll_listeners b.
Proof. unfold Comments_effect. by repeat case_match. Qed.

Lemma stored_replicate n k v m :
  stored (replicate n (k, v)) m = if n is O then m else <[k := v]> m.
Proof.
  revert m. induction n as [|n IH]; intros m; [done|].
  unfold stored in *; simpl. rewrite IH. destruct n; [done|].
  by rewrite insert_insert_eq.
Qed.

Lemma storage_writes_replicate n k v :
  storage_writes (replicate n (SetItem k v)) = replicate n (k, v).
Proof. induction n as [|n IH]; [done|]. simpl. by f_equal. Qed.

(** Every step of a page logs what it writes, and writes scroll offsets
    only. *)
Lemma step_after b a :
  ∃ evs, after b (step b a) evs ∧ Forall scroll_write (storage_writes evs).
Proof.
  destruct a as [|closure|y|commentBox]; unfold step.
  - eexists. split; [split|].
    + apply useSaveScrollPosition_effect_log.
    + rewrite useSaveScrollPosition_effect_storage.
      destruct (localStorage b !! "scrollPosition") as [s|]; [|done].
      by destruct (negb _).
    + destruct (localStorage b !! "scrollPosition") as [s|]; [|by constructor].
      destruct (negb _); by constructor.
  - exists [RemoveEventListener "scroll" closure]. by split; [|constructor].
  - destruct (scroll_event_spec y b) as (Hl & Hs & _).
    eexists. split; [split; [exact Hl|] |].
    + rewrite Hs, storage_writes_replicate, stored_replicate.
      by destruct (scroll_listeners b).
    + rewrite storage_writes_replicate. apply Forall_replicate.
      split; [done | by exists y].
  - destruct (Comments_effect_frame commentBox b) as (Hl & Hs & _).
    exists []. split; [|by constructor]. split; [by rewrite app_nil_r | done].
Qed.

Lemma run_after actions b :
  ∃ evs, after b (run actions b) evs ∧ Forall scroll_write (storage_writes evs).
Proof.
  revert b. induction actions as [|a actions IH]; intros b.
  { exists []. split; [apply after_refl | by constructor]. }
  destruct (step_after b a) as (e1 & Ha1 & Hw1).
  destruct (IH (step b a)) as (e2 & Ha2 & Hw2).
  exists (e1 ++ e2). split; [by eapply after_trans|].
  rewrite storage_writes_app. by apply Forall_app.
Qed.


Lemma step_keeps_listener b a c :
  c ∈ scroll_listeners b → a ≠ UnmountScrollHook c → c ∈ scroll_listeners (step b a).
Proof.
  intros Hc Ha. destruct a as [|closure|y|commentBox]; unfold step.
  - rewrite useSaveScrollPosition_effect_listeners.
    case_bool_decide; [done|]. apply elem_of_app. by left.
  - apply list_elem_of_filter. split; [congruence | done].
  - by destruct (scroll_event_spec y b) as (_ & _ & ->).
  - by destruct (Comments_effect_frame commentBox b) as (_ & _ & ->).
Qed.

Lemma run_keeps_listener actions b c :
  c ∈ scroll_listeners b → UnmountScrollHook c ∉ actions →
  c ∈ scroll_listeners (run actions b).
Proof.
  revert b. induction actions as [|a actions IH]; intros b Hc Hun; [done|].
  apply IH.
  - apply step_keeps_listener; [done|]. intros ->. apply Hun. by left.
  - intros ?. apply Hun. by right.
Qed.

(** *** The claims on the scroll hook *)

Lemma last_write_elem key writes v :
  last_write key writes = Some v → (key, v) ∈ writes.
Proof.
  unfold last_write. intros Hl. apply last_Some_elem_of in Hl.
  apply list_elem_of_omap in Hl as ([k' v'] & Hin & Hkv). simpl in Hkv.
  destruct (String.eqb_spec k' key) as [->|]; [|done].
  by injection Hkv as ->.
Qed.

Lemma useSaveScrollPosition_effect_restore b s :
  localStorage b !! "scrollPosition" = Some s →
  s ≠ "" →
  log (useSaveScrollPosition_effect b).2 =
    log b ++ [ GetItem "scrollPosition";
               ScrollTo (StringToNumber s) "smooth";
               AddEventListener "scroll" (next_closure b) ].
Proof.
  intros Hs Hne. rewrite useSaveScrollPosition_effect_log, Hs.
  by destruct (String.eqb_spec s "").
Qed.

(** C2.  In a page whose storage the code of the repository alone has
    written since it held no offset (or a non-empty one), whenever a value
    is stored under [scrollPosition] when the component mounts, the hook
    reads it and asks the window to scroll, smoothly, to [Number] of that
    string, before it registers its listener.  ToString of a number is
    never the empty string. *)
Theorem useSaveScrollPosition_restores actions b0 s :
  (∀ y, NumberToString y ≠ "") →
  localStorage b0 !! "scrollPosition" ≠ Some "" →
  let b := run actions b0 in
  localStorage b !! "scrollPosition" = Some s →
  log (useSaveScrollPosition_effect b).2 =
    log b ++ [ GetItem "scrollPosition";
               ScrollTo (StringToNumber s) "smooth";
               AddEventListener "scroll" (next_closure b) ].
Proof.
  intros Hnum H0 b Hs. apply useSaveScrollPosition_effect_restore; [done|].
  intros ->. destruct (run_after actions b0) as (evs & [_ Hst] & Hw).
  fold b in Hst. rewrite Hst, stored_lookup_last in Hs.
  destruct (last_write "scrollPosition" (storage_writes evs)) as [v|] eqn:Hl; [|done].
  injection Hs as ->. apply last_write_elem in Hl.
  rewrite Forall_forall in Hw. destruct (Hw _ Hl) as [_ [y Hy]].
  simpl in Hy. by destruct (Hnum y).
Qed.

(** C3.  Whatever happens in the page, the code writes to storage only what
    it logs, every write is a number under the key [scrollPosition], every
    other key keeps its value, and the value stored under [scrollPosition]
    is the one written last. *)
Theorem storage_holds_last_scroll_offset actions b :
  ∃ evs,
    log (run actions b) = log b ++ evs
    ∧ localStorage (run actions b) = stored (storage_writes evs) (localStorage b)
    ∧ Forall scroll_write (storage_writes evs)
    ∧ (∀ k, k ≠ "scrollPosition" →
         localStorage (run actions b) !! k = localStorage b !! k)
    ∧ localStorage (run actions b) !! "scrollPosition" =
        match last_write "scrollPosition" (storage_writes evs) with
        | Some v => Some v
        | None => localStorage b !! "scrollPosition"
        end.
Proof.
  destruct (run_after actions b) as (evs & [Hl Hs] & Hw).
  exists evs. split_and!; [done | done | done | |].
  - intros k Hk. rewrite Hs. apply stored_lookup_other.
    intros kv Hin. rewrite Forall_forall in Hw.
    destruct (Hw kv Hin) as [-> _]. done.
  - rewrite Hs. apply stored_lookup_last.
Qed.

(** C6.  The effect of the hook reads storage once, when the component
    mounts, writes nothing then, and registers its listener, which stays
    registered until the cleanup of that component runs.  While it is
    registered every scroll event stores the offset of the window under
    [scrollPosition]; the cleanup removes it, and a scroll event without
    listeners writes nothing. *)
Theorem useSaveScrollPosition_lifecycle b :
  let closure := (useSaveScrollPosition_effect b).1 in
  let mounted := (useSaveScrollPosition_effect b).2 in
  (∃ evs, log mounted = log b ++ evs
          ∧ storage_reads evs = ["scrollPosition"] ∧ storage_writes evs = [])
  ∧ closure ∈ scroll_listeners mounted
  ∧ (∀ actions, UnmountScrollHook closure ∉ actions →
       closure ∈ scroll_listeners (run actions mounted))
  ∧ (∀ b' y, closure ∈ scroll_listeners b' →
       localStorage (scroll_event y b') !! "scrollPosition" = Some (NumberToString y)
       ∧ ∃ n, log (scroll_event y b') =
                log b' ++ replicate (S n) (SetItem "scrollPosition" (NumberToString y)))
  ∧ (∀ b', closure ∉ scroll_listeners (useSaveScrollPosition_cleanup closure b'))
  ∧ (∀ b' y, scroll_listeners b' = [] →
       log (scroll_event y b') = log b' ∧ localStorage (scroll_event y b') = localStorage b').
Proof.
  intros closure mounted.
  assert (closure ∈ scroll_listeners mounted) as Hin.
  { unfold closure, mounted.
    rewrite useSaveScrollPosition_effect_listeners, useSaveScrollPosition_effect_closure.
    case_bool_decide; [done|]. apply elem_of_app. right. by left. }
  split_and!.
  - eexists. split; [apply useSaveScrollPosition_effect_log|].
    destruct (localStorage b !! "scrollPosition") as [s|]; [|done].
    by destruct (negb _).
  - done.
  - intros actions Hun. by apply run_keeps_listener.
  - intros b' y Hc. destruct (scroll_event_spec y b') as (Hl & Hs & _).
    rewrite Hl, Hs. destruct (scroll_listeners b') as [|c l].
    + by apply elem_of_nil in Hc.
    + split; [apply lookup_insert_eq | by exists (length l)].
  - intros b' Hc. destruct (useSaveScrollPosition_cleanup_spec closure b') as (_ & _ & Hls).
    rewrite Hls in Hc. apply list_elem_of_filter in Hc as [Hc _]. done.
  - intros b' y Hnil. destruct (scroll_event_spec y b') as (Hl & Hs & _).
    rewrite Hl, Hs, Hnil. by rewrite app_nil_r.
Qed.


(** *** The document *)

Lemma Node_forall_ind (P : Node → Prop) :
  (∀ t a s c, Forall P c → P (Element t a s c)) → ∀ n, P n.
Proof.
  intros HP. fix IH 1. intros [t a s c]. apply HP.
  induction c as [|child c IHc]; constructor; [apply IH | apply IHc].
Qed.

Lemma node_at_app p q d : node_at (p ++ q) d = node_at p d ≫= node_at q.
Proof.
  revert d. induction p as [|k p IH]; intros d; simpl; [done|].
  destruct (childNodes_of d !! k) as [child|]; simpl; [apply IH | done].
Qed.

Lemma update_at_is_Some p f d : is_Some (node_at p d) → is_Some (update_at p f d).
Proof.
  revert d. induction p as [|k p IH]; intros [t a s c]; simpl; [by eauto|].
  destruct (c !! k) as [child|]; simpl; [|by intros [? ?]].
  intros Hn. destruct (IH child Hn) as [child' ->]. simpl. by eauto.
Qed.

Lemma node_at_update p f d d' :
  update_at p f d = Some d' →
  ∃ n, node_at p d = Some n ∧ node_at p d' = Some (f n).
Proof.
  revert d d'. induction p as [|k p IH]; intros [t a s c] d'; simpl.
  { intros [= <-]. by eauto. }
  destruct (c !! k) as [child|] eqn:Hk; simpl; [|done].
  destruct (update_at p f child) as [child'|] eqn:Hu; simpl; [|done].
  intros [= <-]. destruct (IH _ _ Hu) as (n & Hn & Hn'). exists n. simpl.
  rewrite list_lookup_insert_eq by (by eapply lookup_lt_Some). by split.
Qed.

Lemma first_in_None find k l :
  first_in find k l = None ↔ Forall (λ child, find child = None) l.
Proof.
  revert k. induction l as [|child l IH]; intros k; simpl.
  { split; [by constructor | done]. }
  destruct (find child) as [p|] eqn:Hf.
  - split; [done|]. intros Hall. apply Forall_cons in Hall as [? _]. congruence.
  - rewrite IH. split; [by constructor | by intros [_ ?]%Forall_cons].
Qed.

Lemma first_in_Some find k l q :
  first_in find k l = Some q →
  ∃ i child p, q = (k + i)%nat :: p ∧ l !! i = Some child ∧ find child = Some p.
Proof.
  revert k. induction l as [|child l IH]; intros k; simpl; [done|].
  destruct (find child) as [p|] eqn:Hf.
  - intros [= <-]. exists 0%nat, child, p. by rewrite Nat.add_0_r.
  - intros Hq. destruct (IH _ Hq) as (i & c & p & -> & Hi & Hc).
    exists (S i), c, p. split_and!; [f_equal; lia | done | done].
Qed.

Lemma first_in_is_Some find k l i child :
  l !! i = Some child → is_Some (find child) → is_Some (first_in find k l).
Proof.
  intros Hi Hc. destruct (first_in find k l) eqn:Hf; [by eauto|].
  apply first_in_None in Hf. rewrite Forall_forall in Hf.
  rewrite (Hf child) in Hc; [by destruct Hc | by eapply list_elem_of_lookup_2].
Qed.

(** [getElementById] returns an element of the document that has the id. *)
Lemma getElementById_sound id d q :
  getElementById id d = Some q →
  ∃ n, node_at q d = Some n ∧ getAttribute "id" n = Some id.
Proof.
  revert q. induction d as [t a s c IH] using Node_forall_ind. intros q; simpl.
  case_bool_decide as Hid.
  { intros [= <-]. by exists (Element t a s c). }
  intros Hq. destruct (first_in_Some _ _ _ _ Hq) as (i & child & p & -> & Hi & Hc).
  rewrite Forall_forall in IH.
  destruct (IH child (list_elem_of_lookup_2 _ _ _ Hi) p Hc) as (n & Hn & Ha).
  exists n. simpl. by rewrite Hi.
Qed.

(** An element with the id somewhere in the document: the search succeeds. *)
Lemma getElementById_complete id p d n :
  node_at p d = Some n → getAttribute "id" n = Some id →
  is_Some (getElementById id d).
Proof.
  revert d. induction p as [|k p IH]; intros [t a s c]; simpl.
  { intros [= <-] Ha. unfold getAttribute in Ha; simpl in Ha.
    rewrite bool_decide_eq_true_2 by done. by eauto. }
  destruct (c !! k) as [child|] eqn:Hk; simpl; [|done].
  intros Hn Ha. case_bool_decide; [by eauto|].
  eapply first_in_is_Some; [exact Hk | by eapply IH].
Qed.

Lemma first_in_insert find k l i child' p :
  Forall (λ child, find child = None) (take i l) →
  (i < length l)%nat →
  find child' = Some p →
  first_in find k (<[i := child']> l) = Some ((k + i)%nat :: p).
Proof.
  revert k i. induction l as [|child l IH]; intros k i Hall Hi Hc; simpl in *; [lia|].
  destruct i as [|i]; simpl.
  - by rewrite Hc, Nat.add_0_r.
  - apply Forall_cons in Hall as [-> Hall].
    rewrite (IH (S k) i) by (done || lia). do 2 f_equal. lia.
Qed.

(** When no element has the id, the container made by [innerHTML] is the
    one that is found. *)
Lemma getElementById_fresh id p d d1 :
  getElementById id d = None →
  update_at p (set_innerHTML_div id) d = Some d1 →
  getElementById id d1 = Some (p ++ [0%nat]).
Proof.
  revert d d1. induction p as [|k p IH]; intros [t a s c] d1; simpl.
  { case_bool_decide as Hid; [done|]. intros _ [= <-]. simpl.
    rewrite bool_decide_eq_false_2 by done. simpl.
    by rewrite bool_decide_eq_true_2. }
  case_bool_decide as Hid; [done|]. intros Hnone.
  destruct (c !! k) as [child|] eqn:Hk; simpl; [|done].
  destruct (update_at p _ child) as [child'|] eqn:Hu; simpl; [|done].
  intros [= <-]. simpl. rewrite bool_decide_eq_false_2 by done.
  apply first_in_None in Hnone.
  rewrite (first_in_insert _ _ _ _ _ (p ++ [0%nat])).
  - done.
  - by apply Forall_take.
  - by eapply lookup_lt_Some.
  - eapply IH; [|done]. rewrite Forall_forall in Hnone.
    apply Hnone. by eapply list_elem_of_lookup_2.
Qed.


(** *** The claim on the comment widget *)

Lemma utterances_script_eq :
  utterances_script =
    Element "script"
      [ ("src", "https://utteranc.es/client.js");
        ("repo", "mxmnci/portfolio-website");
        ("issue-term", "pathname");
        ("theme", "preferred-color-scheme");
        ("crossorigin", "anonymous") ]
      true [].
Proof. reflexivity. Qed.

(** C7.  When [Comments] mounts, with [commentBox.current] an element of
    the document, its effect completes: the children of that element are
    replaced by one new, empty [div] whose id is ['comments_'] followed by
    the time, and a [script] element with [src], [repo], [issue-term],
    [theme] and [crossorigin] set and [async] true is appended to the
    element that [getElementById] finds for that id, which is the new [div]
    when the id was not in use. *)
Theorem Comments_injects_script commentBox b box :
  node_at commentBox (document b) = Some box →
  let id := commentNodeId (now b) in
  ∃ d1 container holder d2,
    update_at commentBox (set_innerHTML_div id) (document b) = Some d1
    ∧ node_at commentBox d1 =
        Some (Element (tagName_of box) (attributes_of box) (async_of box)
                [Element "div" [("id", id)] false []])
    ∧ getElementById id d1 = Some container
    ∧ node_at container d1 = Some holder
    ∧ getAttribute "id" holder = Some id
    ∧ Comments_effect commentBox b = (Normal (), with_document d2 b)
    ∧ node_at container d2 =
        Some (Element (tagName_of holder) (attributes_of holder) (async_of holder)
                (childNodes_of holder ++ [utterances_script]))
    ∧ tagName_of utterances_script = "script"
    ∧ getAttribute "src" utterances_script = Some "https://utteranc.es/client.js"
    ∧ getAttribute "repo" utterances_script = Some "mxmnci/portfolio-website"
    ∧ getAttribute "issue-term" utterances_script = Some "pathname"
    ∧ getAttribute "theme" utterances_script = Some "preferred-color-scheme"
    ∧ getAttribute "crossorigin" utterances_script = Some "anonymous"
    ∧ async_of utterances_script = true
    ∧ (getElementById id (document b) = None → container = commentBox ++ [0%nat]).
Proof.
  intros Hbox id.
  destruct (update_at_is_Some commentBox (set_innerHTML_div id) (document b))
    as [d1 Hd1]; [by eauto|].
  destruct (node_at_update _ _ _ _ Hd1) as (box' & Hbox' & Hnew).
  rewrite Hbox in Hbox'. injection Hbox' as <-.
  assert (node_at (commentBox ++ [0%nat]) d1 = Some (Element "div" [("id", id)] false []))
    as Hdiv.
  { rewrite node_at_app, Hnew. by destruct box. }
  destruct (getElementById_complete id _ _ _ Hdiv eq_refl) as [container Hc].
  destruct (getElementById_sound _ _ _ Hc) as (holder & Hh & Hid).
  destruct (update_at_is_Some container (appendChild utterances_script) d1)
    as [d2 Hd2]; [by eauto|].
  destruct (node_at_update _ _ _ _ Hd2) as (holder' & Hh' & Happ).
  rewrite Hh in Hh'. injection Hh' as <-.
  exists d1, container, holder, d2. split_and!; try done.
  - rewrite Hnew. by destruct box.
  - unfold Comments_effect. fold id. rewrite Hd1. simpl. rewrite Hc, Hd2. done.
  - rewrite Happ. by destruct holder.
  - intros Hfresh. rewrite (getElementById_fresh _ _ _ _ Hfresh Hd1) in Hc. congruence.
Qed.

End BrowserTheory.

(** ** The code on concrete inputs *)

Section Runs.
Import JS Token TokenSpec TokenDemo Browser BrowserSpec BrowserDemo.

(** The executable platform never prints a number as the empty string. *)

Lemma app_nonempty_l (a b : string) : a ≠ "" → a +:+ b ≠ "".
Proof. by destruct a. Qed.

Lemma app_nonempty_r (a b : string) : b ≠ "" → a +:+ b ≠ "".
Proof. destruct a; [done|]. simpl. discriminate. Qed.

Lemma pretty_N_go_nonempty (x : N) (s : string) : s ≠ "" → pretty_N_go x s ≠ "".
Proof.
  revert s. induction (N.lt_wf_0 x) as [x _ IH]. intros s Hs.
  destruct (decide (0 < x)%N) as [Hx|Hx].
  - rewrite pretty_N_go_step by done. apply IH; [|done].
    apply N.div_lt; lia.
  - assert (x = 0%N) as -> by lia. by rewrite pretty_N_go_0.
Qed.

Lemma pretty_N_nonempty (x : N) : pretty x ≠ "".
Proof.
  unfold pretty, pretty_N. case_decide; [done|].
  rewrite pretty_N_go_step by lia. by apply pretty_N_go_nonempty.
Qed.

Lemma pretty_Z_nonempty (x : Z) : pretty x ≠ "".
Proof.
  destruct x; unfold pretty, pretty_Z; simpl; [done | apply pretty_N_nonempty | done].
Qed.

Lemma format_digits_nonempty digits n : digits ≠ "" → Demo.format_digits digits n ≠ "".
Proof.
  intros Hd. unfold Demo.format_digits.
  repeat case_match;
    first [ by apply app_nonempty_l | by apply app_nonempty_r, app_nonempty_l ].
Qed.

Lemma Demo_NumberToString_nonempty x : Demo.NumberToString x ≠ "".
Proof.
  destruct x as [q| |[]]; simpl; try done.
  assert (∀ q, Demo.positive_to_string q ≠ "") as Hpos.
  { intros q'. unfold Demo.positive_to_string.
    destruct (Demo.scale _ _ _) as [[m j]|].
    - destruct (Demo.strip_zeros _ _ _) as [s dropped].
      apply format_digits_nonempty, pretty_Z_nonempty.
    - apply app_nonempty_l, pretty_Z_nonempty. }
  repeat case_match; [done | done | apply Hpos].
Qed.

(** A valid, unexpired token is returned as it is, offline. *)
Lemma getAccessToken_cached_witness :
  @getAccessToken Demo.platform (host offline) config (world (JStr jwt) JUndefined)
  = (Normal (JStr jwt), world (JStr jwt) JUndefined).
Proof.
  apply (@getAccessToken_cached Demo.platform (host offline) config
           (world (JStr jwt) JUndefined)); vm_compute; reflexivity.
Defined.

(** The refresh token is rejected by the endpoint: the error is logged
    and the user authorizes again. *)
Lemma getAccessToken_refresh_failure_witness :
  let w := world JUndefined (JStr "R1") in
  @guard Demo.platform (host invalid_grant) w = Normal false
  ∧ ToBoolean (refreshToken (this w)) = true
  ∧ (@refreshAccessToken Demo.platform (host invalid_grant) config w).1
    = Throw (Error "Unable to refresh access token. Refresh token may be expired.")
  ∧ (@getAccessToken Demo.platform (host invalid_grant) config w).1 = Normal (JStr "A2").
Proof.
  intros w.
  assert (@guard Demo.platform (host invalid_grant) w = Normal false) as Hg
    by (vm_compute; reflexivity).
  assert (ToBoolean (refreshToken (this w)) = true) as Hr by reflexivity.
  destruct (@refreshAccessToken Demo.platform (host invalid_grant) config w)
    as [r w1] eqn:Ht.
  assert (r = Throw (Error "Unable to refresh access token. Refresh token may be expired."))
    as -> by (apply (f_equal fst) in Ht; vm_compute in Ht; congruence).
  destruct (@getAccessToken_refresh_failure Demo.platform (host invalid_grant) config
              w _ w1 Hg Hr Ht) as (_ & _ & _ & Hret & _).
  split_and!; [done | done | done |].
  apply (f_equal snd) in Ht. vm_compute in Ht. subst w1.
  eapply (Hret (JStr "A2", JStr "R2")). vm_compute. reflexivity.
Defined.

(** A token without a dot: the TypeError of [isTokenExpired] leaves
    [getAccessToken]. *)
Lemma getAccessToken_throws_iff_witness :
  let w := world (JStr "abc") (JStr "R1") in
  escapes (platform := Demo.platform) (host := host offline) config w TypeError w.
Proof.
  intros w.
  apply (proj1 (@getAccessToken_throws_iff Demo.platform (host offline) config
                  w TypeError w)).
  vm_compute. reflexivity.
Defined.

(** C5 as stated fails: the header of this token does not parse, the
    SyntaxError is raised outside the [try] of the refresh, and yet
    [getAccessToken] returns a token. *)
Lemma header_error_is_caught :
  @isValidTokenHeader_try Demo.platform (JStr bad_header_jwt) = Throw SyntaxError
  ∧ (@getAccessToken Demo.platform (host offline) config
       (world (JStr bad_header_jwt) JUndefined)).1 = Normal (JStr "A2").
Proof. split; vm_compute; reflexivity. Qed.

(** C10 as stated fails: [refreshAccessToken] throws on an answer that
    parses to [null], which has no [error] field, and when the request is
    rejected, where no answer is parsed at all. *)
Lemma refresh_throws_without_error_field :
  let w := world JUndefined (JStr "R1") in
  (@refresh_response Demo.platform (host (Normal "null")) config w = Normal JNull
   ∧ ToBoolean (own JNull "error") = false
   ∧ (@refreshAccessToken Demo.platform (host (Normal "null")) config w).1
     = Throw TypeError)
  ∧ (@refresh_response Demo.platform (host offline) config w
     = Throw (Rejection "Failed to fetch")
     ∧ (@refreshAccessToken Demo.platform (host offline) config w).1
       = Throw (Rejection "Failed to fetch")).
Proof. intros w. split_and!; vm_compute; reflexivity. Qed.

(** An answer without [error]: the access token it carries is returned. *)
Lemma refreshAccessToken_throws_iff_witness :
  let h := host (Normal (Demo.json "{'access_token':'A1','expires_in':3600}")) in
  let w := world JUndefined (JStr "R1") in
  ∃ parsed, @refresh_response Demo.platform h config w = Normal parsed
            ∧ ToBoolean (own parsed "error") = false
            ∧ JStr "A1" = own parsed "access_token".
Proof.
  intros h w.
  apply (proj2 (@refreshAccessToken_throws_iff Demo.platform h config w)).
  vm_compute. reflexivity.
Defined.

Example getAccessToken_environment_writes_run :
  written_keys
    (trace (@getAccessToken Demo.platform (host invalid_grant) config
              (world JUndefined (JStr "R1"))).2)
  = ["token"; "refresh_token"].
Proof. vm_compute. reflexivity. Qed.

Example isValidTokenHeader_runs :
  @isValidTokenHeader Demo.platform (JStr jwt) = Normal true
  ∧ @isValidTokenHeader Demo.platform (JStr bad_header_jwt) = Normal false
  ∧ @isValidTokenHeader Demo.platform (JStr "") = Normal false
  ∧ @isTokenExpired Demo.platform (JStr "abc") 1700000000000 = Throw TypeError.
Proof. split_and!; vm_compute; reflexivity. Qed.

(** A visit that left the window at 120.5: the next mount restores it. *)
Lemma useSaveScrollPosition_restores_witness :
  let b := @run Demo.platform
             [MountScrollHook; Scroll (number_of_Z 40); Scroll (Fin (1205 # 10));
              UnmountScrollHook 0%nat] (page ∅) in
  localStorage b !! "scrollPosition" = Some "120.5"
  ∧ log (@useSaveScrollPosition_effect Demo.platform b).2
    = log b ++ [ GetItem "scrollPosition"; ScrollTo (Fin (241 # 2)) "smooth";
                 AddEventListener "scroll" 1%nat ].
Proof.
  intros b.
  assert (localStorage b !! "scrollPosition" = Some "120.5") as Hs
    by (vm_compute; reflexivity).
  split; [exact Hs|].
  refine (eq_trans
            (@useSaveScrollPosition_restores Demo.platform _ (page ∅) "120.5"
               Demo_NumberToString_nonempty _ Hs) _).
  - vm_compute. discriminate.
  - vm_compute. reflexivity.
Defined.

(** The guard of the hook is the truthiness of the stored string: an empty
    string, which the hook never stores, is not restored. *)
Example empty_saved_value_is_not_restored :
  let b := page {[ "scrollPosition" := "" ]} in
  localStorage b !! "scrollPosition" = Some ""
  ∧ log (@useSaveScrollPosition_effect Demo.platform b).2
    = [ GetItem "scrollPosition"; AddEventListener "scroll" 0%nat ].
Proof. intros b. split; vm_compute; reflexivity. Qed.

Example scroll_hook_run :
  let b := @run Demo.platform
             [MountScrollHook; Scroll (number_of_Z 40); Scroll (Fin (1205 # 10));
              UnmountScrollHook 0%nat; Scroll (number_of_Z 300)]
             (page ∅) in
  localStorage b !! "scrollPosition" = Some "120.5"
  ∧ storage_writes (log b) = [("scrollPosition", "40"); ("scrollPosition", "120.5")]
  ∧ scroll_listeners b = [].
Proof. intros b. split_and!; vm_compute; reflexivity. Qed.

(** The widget mounts in the demo page. *)
Lemma Comments_injects_script_witness :
  ∃ d2,
    @Comments_effect Demo.platform [0; 0]%nat (page ∅)
    = (Normal (), with_document d2 (page ∅))
    ∧ node_at [0; 0; 0]%nat d2
      = Some (Element "div" [("id", "comments_1700000000000")] false
                [utterances_script]).
Proof.
  destruct (@Comments_injects_script Demo.platform [0; 0]%nat (page ∅)
              (Element "div" [] false []) eq_refl)
    as (d1 & container & holder & d2 & Hd1 & _ & _ & Hh & _ & Hrun & Hd2 & Hrest).
  do 7 destruct Hrest as [_ Hrest].
  rewrite Hrest in Hh, Hd2 by (vm_compute; reflexivity).
  vm_compute in Hd1. injection Hd1 as <-.
  vm_compute in Hh. injection Hh as <-.
  exists d2. split; [exact Hrun | exact Hd2].
Defined.

End Runs.

(** ** Further theorems on the token helper *)

Section TokenMoreTheory.
Import JS Token TokenSpec TokenMore.
Context {platform : Platform} {host : Host}.
Variable config : Config.

(** *** [validateConfig] *)

Lemma validate_entries_normal l :
  validate_entries l = Normal () ↔ Forall (λ kv, ToBoolean kv.2 = true) l.
Proof.
  induction l as [|[k v] l IH]; simpl; [by split; [constructor|]|].
  destruct (ToBoolean v) eqn:Hv.
  - rewrite IH. split; [by constructor | by intros [_ ?]%Forall_cons].
  - split; [done|]. intros [Hv' _]%Forall_cons. simpl in Hv'. congruence.
Qed.

Lemma validate_entries_throw l e :
  validate_entries l = Throw e →
  ∃ before key v after,
    l = before ++ (key, v) :: after
    ∧ Forall (λ kv, ToBoolean kv.2 = true) before
    ∧ ToBoolean v = false
    ∧ e = Error ("Missing config value for " +:+ key).
Proof.
  induction l as [|[k v] l IH]; simpl; [done|].
  destruct (ToBoolean v) eqn:Hv.
  - intros He. destruct (IH He) as (before & key & v' & after & -> & Hb & Hv' & ->).
    exists ((k, v) :: before), key, v', after. split_and!; try done. by constructor.
  - intros [= <-]. exists [], k, v, l. split_and!; try done.
Qed.

(** X1.  [validateConfig] accepts a configuration exactly when its nine
    values are all truthy; otherwise the error names the first key, in the
    order of the literal, whose value is falsy. *)
Theorem validateConfig_first_missing (c : Config) :
  (validateConfig c = Normal () ↔ Forall (λ kv, ToBoolean kv.2 = true) (entries c))
  ∧ (∀ e, validateConfig c = Throw e →
       ∃ before key v after,
         entries c = before ++ (key, v) :: after
         ∧ Forall (λ kv, ToBoolean kv.2 = true) before
         ∧ ToBoolean v = false
         ∧ e = Error ("Missing config value for " +:+ key)).
Proof.
  split; [apply validate_entries_normal | apply validate_entries_throw].
Qed.

(** X2.  The script as it is pasted needs the two PKCE values of the
    environment: without a truthy [code_challenge], and then without a
    truthy [code_verifier], it throws the error of [validateConfig] and
    does nothing else; with both it constructs the instance and gets the
    token, the placeholders of the literal being truthy strings. *)
Theorem script_needs_pkce_values w :
  let env := environment w in
  (ToBoolean (environment_get env "code_challenge") = false →
     script w = (Throw (Error "Missing config value for code_challenge"), w))
  ∧ (ToBoolean (environment_get env "code_challenge") = true →
     ToBoolean (environment_get env "code_verifier") = false →
     script w = (Throw (Error "Missing config value for code_verifier"), w))
  ∧ (ToBoolean (environment_get env "code_challenge") = true →
     ToBoolean (environment_get env "code_verifier") = true →
     script w = (constructor;; getAccessToken (config_literal env)) w).
Proof.
  intros env. unfold script, preflight, validateConfig, entries, mbind, M_bind, lift.
  simpl. fold env. split_and!.
  - by intros ->.
  - by intros -> ->.
  - by intros -> ->.
Qed.


(** *** What a failure leaves behind *)

Lemma replay_no_writes evs env : written_keys evs = [] → replay evs env = env.
Proof.
  revert env. induction evs as [|ev evs IH]; intros env Hk; [done|].
  unfold replay in *. simpl. destruct ev; simpl in Hk; try done; by apply IH.
Qed.

Lemma quiet_unchanged {A} (m : M A) w :
  quiet m → environment (m w).2 = environment w ∧ this (m w).2 = this w.
Proof.
  intros Hq. destruct (Hq w) as (evs & [_ Henv] & Hk & Ht).
  split; [|done]. rewrite Henv. by apply replay_no_writes.
Qed.

(** X3.  A call of [getAccessToken] that throws has written nothing: the
    environment and the fields of the instance are as they were. *)
Theorem getAccessToken_failure_writes_nothing w e w' :
  getAccessToken config w = (Throw e, w') →
  environment w' = environment w ∧ this w' = this w.
Proof.
  intros Hget. destruct (guard w) as [[]|e0] eqn:Hg.
  - by rewrite (getAccessToken_guard_true _ _ Hg) in Hget.
  - assert (∀ w0 w1, store_new_tokens config w0 = (Throw e, w1) →
              environment w1 = environment w0 ∧ this w1 = this w0) as Hstore.
    { intros w0 w1 Hs.
      destruct (quiet_unchanged (retrieveNewTokens config) w0
                  (quiet_retrieveNewTokens config)) as [Henv Hthis].
      destruct (retrieveNewTokens config w0) as [[[a r]|e2] w2] eqn:Hn.
      - by rewrite (store_new_tokens_normal _ _ _ _ _ Hn) in Hs.
      - rewrite (store_new_tokens_throw _ _ _ _ Hn) in Hs. by injection Hs as _ <-. }
    destruct (ToBoolean (refreshToken (this w))) eqn:Hr.
    + destruct (quiet_unchanged (refreshAccessToken config) w
                  (quiet_refreshAccessToken config)) as [Henv Hthis].
      destruct (refreshAccessToken config w) as [[t|e1] w1] eqn:Ht.
      * by rewrite (getAccessToken_refreshed _ _ _ _ Hg Hr Ht) in Hget.
      * rewrite (getAccessToken_refresh_throw _ _ _ _ Hg Hr Ht) in Hget.
        destruct (Hstore _ _ Hget) as [-> ->]. by split.
    + rewrite (getAccessToken_no_refresh _ _ Hg Hr) in Hget. by apply Hstore.
  - rewrite (getAccessToken_guard_throw _ _ _ Hg) in Hget. by injection Hget as _ <-.
Qed.

(** *** The instance and the environment *)

Lemma constructor_mirrors w : mirrors (constructor w).2.
Proof. by split. Qed.

Lemma mirrors_env_write_token t w :
  refreshToken (this w) = environment_get (environment w) "refresh_token" →
  mirrors (env_write "token" t (with_tokens t (refreshToken (this w)) w)).
Proof.
  intros Hr. split; simpl; unfold environment_get.
  - by rewrite lookup_insert_eq.
  - by rewrite lookup_insert_ne.
Qed.

Lemma mirrors_store a r w :
  mirrors (env_write "refresh_token" r (env_write "token" a (with_tokens a r w))).
Proof.
  split; simpl; unfold environment_get.
  - by rewrite lookup_insert_ne, lookup_insert_eq.
  - by rewrite lookup_insert_eq.
Qed.

Lemma mirrors_same_state w w' :
  environment w' = environment w → this w' = this w → mirrors w → mirrors w'.
Proof. unfold mirrors. by intros -> ->. Qed.

(** [getAccessToken] keeps the instance and the environment in agreement,
    and what it returns is the token of the instance. *)
Lemma getAccessToken_mirrors w :
  mirrors w →
  mirrors (getAccessToken config w).2
  ∧ ∀ t, (getAccessToken config w).1 = Normal t → token (this (getAccessToken config w).2) = t.
Proof.
  intros Hm.
  assert (∀ w0, mirrors w0 →
            mirrors (store_new_tokens config w0).2
            ∧ ∀ t, (store_new_tokens config w0).1 = Normal t →
                   token (this (store_new_tokens config w0).2) = t) as Hstore.
  { intros w0 Hm0.
    destruct (quiet_unchanged (retrieveNewTokens config) w0
                (quiet_retrieveNewTokens config)) as [Henv Hthis].
    destruct (retrieveNewTokens config w0) as [[[a r]|e2] w2] eqn:Hn.
    - rewrite (store_new_tokens_normal _ _ _ _ _ Hn).
      split; [apply mirrors_store | by intros t [= <-]].
    - rewrite (store_new_tokens_throw _ _ _ _ Hn).
      split; [by eapply mirrors_same_state | done]. }
  destruct (guard w) as [[]|e0] eqn:Hg.
  - rewrite (getAccessToken_guard_true _ _ Hg). split; [done | by intros t [= <-]].
  - destruct (ToBoolean (refreshToken (this w))) eqn:Hr.
    + destruct (quiet_unchanged (refreshAccessToken config) w
                  (quiet_refreshAccessToken config)) as [Henv Hthis].
      destruct (refreshAccessToken config w) as [[t|e1] w1] eqn:Ht.
      * rewrite (getAccessToken_refreshed _ _ _ _ Hg Hr Ht). simpl in Henv, Hthis.
        split; [|by intros t' [= <-]].
        apply mirrors_env_write_token. rewrite Henv, Hthis. apply Hm.
      * rewrite (getAccessToken_refresh_throw _ _ _ _ Hg Hr Ht).
        apply Hstore. by eapply mirrors_same_state.
    + rewrite (getAccessToken_no_refresh _ _ Hg Hr). by apply Hstore.
  - rewrite (getAccessToken_guard_throw _ _ _ Hg). by split.
Qed.

Lemma preflight_unfold w :
  preflight config w =
    match validateConfig config with
    | Normal _ => getAccessToken config (constructor w).2
    | Throw e => (Throw e, w)
    end.
Proof.
  unfold preflight, mbind, M_bind, lift. by destruct (validateConfig config).
Qed.

(** X4.  When the script returns a token, the environment variable
    [token] holds that token afterwards, and the instance agrees with the
    environment on both of its fields. *)
Theorem preflight_stores_returned_token w t :
  (preflight config w).1 = Normal t →
  environment_get (environment (preflight config w).2) "token" = t
  ∧ mirrors (preflight config w).2.
Proof.
  rewrite preflight_unfold. destruct (validateConfig config); [|done].
  intros Ht.
  destruct (getAccessToken_mirrors (constructor w).2 (constructor_mirrors w))
    as [Hm Hret].
  split; [|done]. destruct Hm as [<- _]. by apply Hret.
Qed.


(** X5.  The script runs before every request of the sandbox.  When one
    run returned a token that is still usable at the next run (truthy, not
    expired, valid header), the next run returns the same token and does
    nothing: no request, no write. *)
Theorem preflight_again_uses_stored_token w t w1 :
  preflight config w = (Normal t, w1) →
  ToBoolean t = true →
  isTokenExpired t (Date_now (trace w1)) = Normal false →
  isValidTokenHeader t = Normal true →
  preflight config w1 = (Normal t, w1).
Proof.
  intros Hrun Ht He Hv.
  pose proof (preflight_stores_returned_token w t) as Hstored.
  rewrite Hrun in Hstored. destruct (Hstored eq_refl) as [Henv [Hm1 Hm2]].
  simpl in *.
  assert (validateConfig config = Normal ()) as Hval.
  { rewrite preflight_unfold in Hrun. by destruct (validateConfig config) as [[]|]. }
  assert ((constructor w1).2 = w1) as Hsame.
  { unfold constructor; simpl. rewrite <- Hm1, <- Hm2. by destruct w1 as [? [] ?]. }
  rewrite preflight_unfold, Hval, Hsame.
  assert (token (this w1) = t) as Htok by congruence.
  rewrite <- Htok in *. apply getAccessToken_guard_true.
  by rewrite guard_cases, Ht, He.
Qed.

(** *** How many requests *)









Lemma requests_weaken {A} f o f' o' (m : M A) :
  (f ≤ f')%nat → (o ≤ o')%nat → requests_at_most f o m → requests_at_most f' o' m.
Proof.
  intros Hf Ho Hm w. destruct (Hm w) as (evs & Ht & ? & ? & ?).
  exists evs. split_and!; [done | lia | lia | done].
Qed.






(** *** Segments *)

Lemma split_app_sep sep (h r : string) :
  sep ∉ list_ascii_of_string h →
  split sep (h +:+ String sep r) = h :: split sep r.
Proof.
  induction h as [|c h IH]; simpl; intros Hsep.
  - by rewrite Ascii.eqb_refl.
  - destruct (Ascii.eqb_spec c sep) as [->|_]; [by destruct Hsep; left|].
    rewrite IH; [done|]. intros ?. by destruct Hsep; right.
Qed.

Lemma split_three_segments h p s :
  "."%char ∉ list_ascii_of_string h →
  "."%char ∉ list_ascii_of_string p →
  ∃ rest, split "." (three_segments h p s) = h :: p :: rest.
Proof.
  intros Hh Hp. unfold three_segments.
  change (h +:+ "." +:+ p +:+ "." +:+ s)
    with (h +:+ String "." (p +:+ String "." s)).
  rewrite !split_app_sep by done. by eauto.
Qed.

(** X7.  The signature is never looked at: two tokens with the same header
    and payload segments get the same answers from [isTokenExpired] and
    [isValidTokenHeader], and so the same decision on the cached token. *)
Theorem signature_is_ignored h p s1 s2 now :
  "."%char ∉ list_ascii_of_string h →
  "."%char ∉ list_ascii_of_string p →
  isTokenExpired (JStr (three_segments h p s1)) now
  = isTokenExpired (JStr (three_segments h p s2)) now
  ∧ isValidTokenHeader (JStr (three_segments h p s1))
    = isValidTokenHeader (JStr (three_segments h p s2))
  ∧ isTokenExpired (JStr (three_segments h p s1)) now
    = (decoded ← decode_segment p; exp ← get_prop decoded "exp";
       less_than exp (now_seconds now)).
Proof.
  intros Hh Hp.
  destruct (split_three_segments h p s1 Hh Hp) as [r1 H1].
  destruct (split_three_segments h p s2 Hh Hp) as [r2 H2].
  unfold isTokenExpired, parseJwt, isValidTokenHeader, isValidTokenHeader_try.
  by rewrite H1, H2.
Qed.

(** *** Expiry *)

Lemma Qltb_lt a b : Qltb a b = true ↔ (a < b)%Q.
Proof.
  unfold Qltb. rewrite negb_true_iff, <- not_true_iff_false, Qle_bool_iff.
  split; [apply Qnot_le_lt | apply Qlt_not_le].
Qed.

(** X8.  For a token whose payload parses to an object: without an [exp]
    field the token never counts as expired, and with a finite number in
    [exp] it counts as expired exactly when that number is below the
    current time in whole seconds, so a token is still used during the
    second in which it expires. *)
Theorem isTokenExpired_exp token now ps :
  parseJwt token = Normal (JObj ps) →
  (assoc "exp" ps = None → isTokenExpired token now = Normal false)
  ∧ (∀ q, assoc "exp" ps = Some (JNum (Fin q)) →
       (∃ b, isTokenExpired token now = Normal b)
       ∧ (isTokenExpired token now = Normal true ↔ (q < inject_Z (now / 1000))%Q)).
Proof.
  intros Hp. unfold isTokenExpired. rewrite Hp. simpl. split.
  - by intros ->.
  - intros q ->. simpl. split; [by eauto|].
    rewrite <- Qltb_lt. unfold now_seconds, number_of_Z.
    split; [by intros [= ->] | by intros ->].
Qed.

(** X9.  A truthy token that is not a string (a number or an object put in
    the environment by hand) makes [getAccessToken] throw a TypeError
    before any request, although [isValidTokenHeader] alone would answer
    [false] for it. *)
Theorem getAccessToken_non_string_token w :
  ToBoolean (token (this w)) = true →
  (∀ s, token (this w) ≠ JStr s) →
  getAccessToken config w = (Throw TypeError, w)
  ∧ isValidTokenHeader (token (this w)) = Normal false.
Proof.
  intros Ht Hs. split.
  - apply getAccessToken_guard_throw. rewrite guard_cases, Ht.
    destruct (token (this w)); try done. by destruct (Hs s).
  - destruct (token (this w)); try done. by destruct (Hs s).
Qed.

(** *** The answer to the authorization code *)

Lemma retrieveNewTokens_response w :
  (retrieveNewTokens config w).1 =
    (parsed ← retrieve_response config w;
     access_token ← get_prop parsed "access_token";
     refresh_token ← get_prop parsed "refresh_token";
     Normal (access_token, refresh_token)).
Proof.
  unfold retrieveNewTokens, retrieve_response, mbind, M_bind, Completion_bind,
    lift, fetch, oauth2Request; simpl. fold (authorize_params config).
  destruct (explorer_oauth2Request _ _ _) as [authorization|]; [|done]; simpl.
  destruct (get_prop authorization "code") as [code|]; [|done]; simpl.
  destruct (constructRequestBody _) as [body|]; [|done]; simpl.
  destruct (explorer_fetch _ _ _) as [resp|]; [|done]; simpl.
  destruct (JSON_parse _) as [parsed|]; [|done]; simpl.
  destruct (get_prop parsed "access_token"); [|done]; simpl.
  by destruct (get_prop parsed "refresh_token").
Qed.

(** X10.  [retrieveNewTokens] does not look at an [error] field.  When the
    token endpoint answers the authorization code with an object, its
    [access_token] and [refresh_token] fields are taken as they are; an
    object without [access_token], such as an error answer, makes
    [getAccessToken] return [undefined] and store [undefined] under
    [token]. *)
Theorem retrieveNewTokens_ignores_error w ps :
  retrieve_response config w = Normal (JObj ps) →
  (retrieveNewTokens config w).1
  = Normal (default JUndefined (assoc "access_token" ps),
            default JUndefined (assoc "refresh_token" ps))
  ∧ (guard w = Normal false → ToBoolean (refreshToken (this w)) = false →
     assoc "access_token" ps = None →
     (getAccessToken config w).1 = Normal JUndefined
     ∧ environment (getAccessToken config w).2 !! "token" = Some JUndefined).
Proof.
  intros Hresp.
  assert ((retrieveNewTokens config w).1
          = Normal (default JUndefined (assoc "access_token" ps),
                    default JUndefined (assoc "refresh_token" ps))) as Hret
    by (by rewrite retrieveNewTokens_response, Hresp).
  split; [done|]. intros Hg Hr Ha.
  rewrite (getAccessToken_no_refresh _ _ Hg Hr).
  destruct (retrieveNewTokens config w) as [r w1] eqn:Hn. simpl in Hret. subst r.
  rewrite (store_new_tokens_normal _ _ _ _ _ Hn), Ha. simpl. split; [done|].
  by rewrite lookup_insert_ne, lookup_insert_eq.
Qed.


(** *** The request body *)

Lemma list_ascii_of_string_app (a b : string) :
  list_ascii_of_string (a +:+ b) = list_ascii_of_string a ++ list_ascii_of_string b.
Proof. induction a as [|c a IH]; simpl; [done | by rewrite IH]. Qed.

Lemma split_join sep (parts : list string) :
  parts ≠ [] →
  Forall (λ part, sep ∉ list_ascii_of_string part) parts →
  split sep (join (String sep "") parts) = parts.
Proof.
  induction parts as [|part parts IH]; [done|]. intros _ Hall.
  apply Forall_cons in Hall as [Hpart Hall].
  destruct parts as [|part' parts].
  - by apply split_without.
  - change (join (String sep "") (part :: part' :: parts))
      with (part +:+ String sep (join (String sep "") (part' :: parts))).
    rewrite split_app_sep by done. f_equal. by apply IH.
Qed.

Lemma mapM_Completion_Normal {A B} (f : A → Completion B) l ys :
  mapM f l = Normal ys → Forall2 (λ x y, f x = Normal y) l ys.
Proof.
  revert ys. induction l as [|x l IH]; simpl; intros ys.
  - intros [= <-]. constructor.
  - unfold mbind, Completion_bind. destruct (f x) as [y|] eqn:Hx; [|done].
    destruct (mapM f l) as [k|]; [|done]. intros [= <-]. constructor; auto.
Qed.

(** X11.  The body built by [constructRequestBody] has one field
    [key=value] per key of the data, in order, separated by [&]; as
    [encodeURIComponent] never leaves an [&] in its result, no value can add
    or split a field. *)
Theorem constructRequestBody_fields data body :
  (∀ v s, encodeURIComponent v = Normal s → "&"%char ∉ list_ascii_of_string s) →
  Forall (λ kv, "&"%char ∉ list_ascii_of_string kv.1) data →
  data ≠ [] →
  constructRequestBody data = Normal body →
  Forall2 (λ kv part, ∃ value, encodeURIComponent kv.2 = Normal value
                               ∧ part = field kv.1 value)
    data (split "&" body).
Proof.
  intros Henc Hkeys Hne. unfold constructRequestBody, mbind, Completion_bind, mret,
    Completion_ret.
  destruct (mapM _ data) as [parts|] eqn:Hparts; [|done]. intros [= <-].
  apply mapM_Completion_Normal in Hparts.
  assert (Forall2 (λ kv part, ∃ value, encodeURIComponent kv.2 = Normal value
                                       ∧ part = field kv.1 value) data parts) as Hf.
  { eapply Forall2_impl; [exact Hparts|]. intros [k v] part; simpl.
    unfold mbind, Completion_bind.
    destruct (encodeURIComponent v) as [value|]; [|done]. intros [= <-]. by eauto. }
  rewrite split_join; [done | |].
  - destruct Hf; [done | done].
  - clear Hparts Hne. induction Hf as [|[k v] part data parts (value & Hv & ->) _ IH];
      constructor.
    + apply Forall_cons in Hkeys as [Hk _]. simpl in *. unfold field.
      rewrite !list_ascii_of_string_app. intros Hin.
      apply elem_of_app in Hin as [Hin | Hin]; [done|].
      apply elem_of_app in Hin as [Hin | Hin]; [|by eapply Henc].
      apply elem_of_cons in Hin as [Hin | Hin]; [done | by apply elem_of_nil in Hin].
    + apply IH. by apply Forall_cons in Hkeys as [_ ?].
Qed.

End TokenMoreTheory.

Section DecodeMoreTheory.
Import JS Token DecodeMore.

Ltac each_byte c :=
  destruct c as [[] [] [] [] [] [] [] []]; vm_compute; reflexivity.

Lemma padded_hex_is_two_hex c :
  slice_last 2 ("00" +:+ toString16 (charCodeAt0 c)) = two_hex c.
Proof. each_byte c. Qed.

Lemma join_empty_cons (x : string) (l : list string) : join "" (x :: l) = x +:+ join "" l.
Proof.
  destruct l as [|y l]; [|done]. simpl.
  induction x as [|c x IH]; [done|].
  change (String c x = String c (x +:+ "")). congruence.
Qed.

Lemma percent_encode_cons c s :
  percent_encode (String c s) = String "%" (two_hex c +:+ percent_encode s).
Proof.
  unfold percent_encode.
  change (list_ascii_of_string (String c s)) with (c :: list_ascii_of_string s).
  rewrite fmap_cons, join_empty_cons, padded_hex_is_two_hex. reflexivity.
Qed.

Lemma escape_two_hex c r :
  Demo.escape ("%"%char :: list_ascii_of_string (two_hex c) ++ r) = Some (N_of_ascii c, r).
Proof. destruct c as [[] [] [] [] [] [] [] []]; vm_compute; reflexivity. Qed.

Lemma decode_uri_percent_encode s fuel :
  (3 * String.length s ≤ fuel)%nat → is_ascii_text s →
  Demo.decode_uri fuel (list_ascii_of_string (percent_encode s))
  = Normal (list_ascii_of_string s).
Proof.
  revert fuel. induction s as [|c s IH]; intros fuel Hfuel Hs.
  { by destruct fuel. }
  apply Forall_cons in Hs as [Hc Hs]. simpl in Hfuel.
  destruct fuel as [|fuel]; [lia|].
  rewrite percent_encode_cons.
  change (list_ascii_of_string (String "%" (two_hex c +:+ percent_encode s)))
    with ("%"%char :: list_ascii_of_string (two_hex c +:+ percent_encode s)).
  assert (list_ascii_of_string (two_hex c +:+ percent_encode s)
          = list_ascii_of_string (two_hex c) ++ list_ascii_of_string (percent_encode s))
    as -> by done.
  cbn [Demo.decode_uri]. change (Demo.code "%" =? 37)%N with true. cbn iota.
  rewrite escape_two_hex.
  apply N.ltb_lt in Hc. rewrite Hc.
  rewrite IH by (done || lia). simpl. by rewrite ascii_N_embedding.
Qed.

Lemma length_percent_encode s :
  String.length (percent_encode s) = (3 * String.length s)%nat.
Proof.
  induction s as [|c s IH]; [done|]. rewrite percent_encode_cons.
  change (String.length (String "%" (two_hex c +:+ percent_encode s)))
    with (S (S (S (String.length (percent_encode s))))).
  rewrite IH. simpl. lia.
Qed.

(** X12.  The detour of [parseJwt] through percent escapes loses nothing:
    every byte, also one below 16, becomes [%] and exactly two hexadecimal
    digits, and for text of ASCII bytes [decodeURIComponent] of the
    result is the text itself. *)
Theorem percent_encode_round_trip s :
  String.length (percent_encode s) = (3 * String.length s)%nat
  ∧ (∀ c r, percent_encode (String c r) = String "%" (two_hex c +:+ percent_encode r))
  ∧ (is_ascii_text s → Demo.decodeURIComponent (percent_encode s) = Normal s).
Proof.
  split_and!; [apply length_percent_encode | apply percent_encode_cons |].
  intros Hs. unfold Demo.decodeURIComponent.
  rewrite decode_uri_percent_encode; [|by rewrite length_percent_encode | done].
  simpl. by rewrite string_of_list_ascii_of_string.
Qed.

End DecodeMoreTheory.

(** ** Further theorems on the browser side *)

Section BrowserMoreTheory.
Import JS Browser BrowserSpec BrowserMore.
Context {platform : Platform}.

(** *** Saving and restoring *)

Lemma step_storage_unless_scroll b a :
  is_scroll a = false → localStorage (step b a) = localStorage b.
Proof.
  destruct a as [|closure|y|commentBox]; [| | done |]; intros _; unfold step.
  - apply useSaveScrollPosition_effect_storage.
  - done.
  - by destruct (Comments_effect_frame commentBox b) as (_ & -> & _).
Qed.

Lemma run_storage_unless_scroll actions b :
  Forall (λ a, is_scroll a = false) actions →
  localStorage (run actions b) = localStorage b.
Proof.
  revert b. induction actions as [|a actions IH]; intros b Hall; [done|].
  apply Forall_cons in Hall as [Ha Hall]. simpl.
  rewrite IH by done. by apply step_storage_unless_scroll.
Qed.

(** X13.  The offset stored at a scroll event, while a component with the
    hook is mounted, is the one restored at the next mount, whatever mounts
    and unmounts in between: the window is asked to scroll to that very
    number when printing and reading it back gives it again. *)
Theorem scroll_offset_survives_remount b y actions :
  scroll_listeners b ≠ [] →
  NumberToString y ≠ "" →
  StringToNumber (NumberToString y) = y →
  Forall (λ a, is_scroll a = false) actions →
  let b' := run actions (scroll_event y b) in
  log (useSaveScrollPosition_effect b').2 =
    log b' ++ [ GetItem "scrollPosition"; ScrollTo y "smooth";
                AddEventListener "scroll" (next_closure b') ].
Proof.
  intros Hl Hne Hround Hact b'.
  assert (localStorage b' !! "scrollPosition" = Some (NumberToString y)) as Hs.
  { unfold b'. rewrite run_storage_unless_scroll by done.
    destruct (scroll_event_spec y b) as (_ & -> & _).
    destruct (scroll_listeners b); [done | apply lookup_insert_eq]. }
  rewrite (useSaveScrollPosition_effect_restore _ _ Hs Hne). by rewrite Hround.
Qed.

(** *** Listeners *)

Lemma Forall_filter_keep {A} (P Q : A → Prop) `{∀ x, Decision (P x)} (l : list A) :
  Forall Q l → Forall Q (filter P l).
Proof.
  rewrite !Forall_forall. intros Hq x [_ Hx]%list_elem_of_filter. by apply Hq.
Qed.

Lemma filter_all {A} (P : A → Prop) `{∀ x, Decision (P x)} (l : list A) :
  Forall P l → filter P l = l.
Proof.
  induction 1 as [|x l Hx _ IH]; [done|]. by rewrite filter_cons_True, IH.
Qed.

Lemma step_fresh_closures b a : fresh_closures b → fresh_closures (step b a).
Proof.
  intros [Hlt Hnd]. destruct a as [|closure|y|commentBox]; unfold step.
  - unfold fresh_closures. rewrite useSaveScrollPosition_effect_listeners.
    assert (next_closure (useSaveScrollPosition_effect b).2 = S (next_closure b)) as ->.
    { unfold useSaveScrollPosition_effect; simpl.
      destruct (localStorage b !! "scrollPosition") as [s|]; simpl;
        [destruct (String.eqb s "")|]; by case_bool_decide. }
    assert (next_closure b ∉ scroll_listeners b) as Hnew.
    { intros Hin. rewrite Forall_forall in Hlt. specialize (Hlt _ Hin). lia. }
    rewrite bool_decide_eq_false_2 by done. split.
    + apply Forall_app. split; [|by repeat constructor].
      eapply Forall_impl; [exact Hlt|]. simpl. lia.
    + apply NoDup_app. split_and!; [done | | apply NoDup_singleton].
      intros c Hc ->%list_elem_of_singleton. done.
  - split; simpl; [by apply Forall_filter_keep | by apply NoDup_filter].
  - destruct (save_all_spec (scroll_listeners b) (with_scrollY y b))
      as (_ & _ & _ & Hls & Hn & _).
    unfold fresh_closures, scroll_event. by rewrite Hls, Hn.
  - unfold fresh_closures, Comments_effect. by repeat case_match.
Qed.

Lemma run_fresh_closures actions b : fresh_closures b → fresh_closures (run actions b).
Proof.
  revert b. induction actions as [|a actions IH]; intros b Hb; [done|].
  apply IH. by apply step_fresh_closures.
Qed.

(** X14.  In a page that started without scroll listeners, whatever was
    mounted, unmounted, scrolled since: no listener is registered twice,
    and the cleanup of a mount removes exactly the listener that mount
    added, so mounting and unmounting leaves the listeners as they were. *)
Theorem mount_unmount_leaves_listeners actions b0 :
  scroll_listeners b0 = [] →
  let b := run actions b0 in
  NoDup (scroll_listeners b)
  ∧ scroll_listeners (useSaveScrollPosition_effect b).2
    = scroll_listeners b ++ [(useSaveScrollPosition_effect b).1]
  ∧ scroll_listeners
      (useSaveScrollPosition_cleanup (useSaveScrollPosition_effect b).1
         (useSaveScrollPosition_effect b).2)
    = scroll_listeners b.
Proof.
  intros H0 b.
  assert (fresh_closures b) as [Hlt Hnd].
  { apply run_fresh_closures. unfold fresh_closures. rewrite H0.
    split; constructor. }
  assert (next_closure b ∉ scroll_listeners b) as Hnew.
  { intros Hin. rewrite Forall_forall in Hlt. specialize (Hlt _ Hin). lia. }
  assert (scroll_listeners (useSaveScrollPosition_effect b).2
          = scroll_listeners b ++ [(useSaveScrollPosition_effect b).1]) as Hmount.
  { rewrite useSaveScrollPosition_effect_listeners, useSaveScrollPosition_effect_closure.
    by rewrite bool_decide_eq_false_2. }
  split_and!; [done | done |].
  destruct (useSaveScrollPosition_cleanup_spec (useSaveScrollPosition_effect b).1
              (useSaveScrollPosition_effect b).2) as (_ & _ & ->).
  rewrite Hmount, useSaveScrollPosition_effect_closure, filter_app.
  rewrite filter_cons_False, filter_nil, app_nil_r by (by intros ?).
  apply filter_all. rewrite Forall_forall. by intros c Hc ->.
Qed.


(** *** More on the document *)

Lemma update_at_ext p (f g : Node → Node) d :
  (∀ n, f n = g n) → update_at p f d = update_at p g d.
Proof.
  intros Hfg. revert d. induction p as [|k p IH]; intros [t a s c]; simpl.
  - by rewrite Hfg.
  - destruct (c !! k) as [child|]; simpl; [|done]. by rewrite IH.
Qed.

Lemma update_at_twice p (f g : Node → Node) d d1 :
  update_at p f d = Some d1 → update_at p g d1 = update_at p (g ∘ f) d.
Proof.
  revert d d1. induction p as [|k p IH]; intros [t a s c] d1; simpl.
  { by intros [= <-]. }
  destruct (c !! k) as [child|] eqn:Hk; simpl; [|done].
  destruct (update_at p f child) as [child1|] eqn:Hu; simpl; [|done].
  intros [= <-]. simpl.
  rewrite list_lookup_insert_eq by (by eapply lookup_lt_Some). simpl.
  rewrite (IH _ _ Hu). destruct (update_at p (g ∘ f) child); simpl; [|done].
  by rewrite list_insert_insert_eq.
Qed.

(** A node rewritten below [p]: the node at [p] is rewritten at the rest of
    the path. *)
Lemma node_at_update_below p q f d d' n :
  update_at (p ++ q) f d = Some d' → node_at p d = Some n →
  ∃ n', update_at q f n = Some n' ∧ node_at p d' = Some n'.
Proof.
  revert d d'. induction p as [|k p IH]; intros [t a s c] d'; simpl.
  { intros Hu [= <-]. by eauto. }
  destruct (c !! k) as [child|] eqn:Hk; simpl; [|done].
  destruct (update_at (p ++ q) f child) as [child'|] eqn:Hu; simpl; [|done].
  intros [= <-] Hn. destruct (IH _ _ Hu Hn) as (n' & Hn' & Hat).
  exists n'. split; [done|]. simpl.
  by rewrite list_lookup_insert_eq by (by eapply lookup_lt_Some).
Qed.

(** A node rewritten at [q] is not seen from a path that parts from [q]. *)
Lemma node_at_update_apart common i j q' p' f d d' :
  i ≠ j →
  update_at (common ++ i :: q') f d = Some d' →
  node_at (common ++ j :: p') d' = node_at (common ++ j :: p') d.
Proof.
  intros Hij. revert d d'. induction common as [|k common IH]; intros [t a s c] d'; simpl.
  - destruct (c !! i) as [child|]; simpl; [|done].
    destruct (update_at q' f child) as [child'|]; simpl; [|done].
    intros [= <-]. simpl. by rewrite list_lookup_insert_ne.
  - destruct (c !! k) as [child|] eqn:Hk; simpl; [|done].
    destruct (update_at _ f child) as [child'|] eqn:Hu; simpl; [|done].
    intros [= <-]. simpl.
    rewrite list_lookup_insert_eq by (by eapply lookup_lt_Some). simpl.
    by apply IH.
Qed.

Lemma first_in_Some_before find k l i p :
  first_in find k l = Some ((k + i)%nat :: p) →
  Forall (λ child, find child = None) (take i l)
  ∧ ∃ child, l !! i = Some child ∧ find child = Some p.
Proof.
  revert k i. induction l as [|child l IH]; intros k i; simpl; [done|].
  destruct (find child) as [p0|] eqn:Hf.
  - intros [= Hi <-]. assert (i = 0%nat) as -> by lia. simpl.
    split; [constructor | by eauto].
  - intros Hq. destruct i as [|i].
    + destruct (first_in_Some _ _ _ _ Hq) as (i' & ? & ? & [= Hi _] & _). lia.
    + replace (k + S i)%nat with (S k + i)%nat in Hq by lia.
      destruct (IH _ _ Hq) as [Hall Hc]. simpl. split; [by constructor | done].
Qed.

Lemma first_in_insert_later find k l i j p x :
  first_in find k l = Some ((k + i)%nat :: p) → (i < j)%nat →
  first_in find k (<[j := x]> l) = Some ((k + i)%nat :: p).
Proof.
  revert k i j. induction l as [|child l IH]; intros k i j; simpl; [done|].
  destruct j as [|j]; [lia|]. simpl.
  destruct (find child) as [p0|] eqn:Hf; [done|].
  intros Hq Hij. destruct i as [|i].
  - destruct (first_in_Some _ _ _ _ Hq) as (i' & ? & ? & [= Hi _] & _). lia.
  - replace (k + S i)%nat with (S k + i)%nat in * by lia. apply IH; [done | lia].
Qed.

(** An element found before the place that is rewritten is still the one
    found. *)
Lemma getElementById_update_later id q p f d d1 :
  getElementById id d = Some q → precedes q p →
  update_at p f d = Some d1 →
  getElementById id d1 = Some q.
Proof.
  intros Hq (common & i & j & q' & p' & -> & -> & Hij). revert d d1 Hq.
  induction common as [|k common IH]; intros [t a s c] d1; simpl.
  - case_bool_decide as Hid; [done|]. intros Hq.
    destruct (c !! j) as [child|]; simpl; [|done].
    destruct (update_at p' f child) as [child'|]; simpl; [|done].
    intros [= <-]. simpl. rewrite bool_decide_eq_false_2 by done.
    by apply (first_in_insert_later _ 0%nat).
  - case_bool_decide as Hid; [done|]. intros Hq.
    destruct (c !! k) as [child|] eqn:Hk; simpl; [|done].
    destruct (update_at _ f child) as [child'|] eqn:Hu; simpl; [|done].
    intros [= <-]. simpl. rewrite bool_decide_eq_false_2 by done.
    destruct (first_in_Some_before _ 0%nat _ k _ Hq) as [Hbefore (child0 & Hk0 & Hc0)].
    rewrite Hk in Hk0. injection Hk0 as <-.
    apply (first_in_insert _ 0%nat); [done | by eapply lookup_lt_Some |].
    by eapply IH.
Qed.


(** *** More on the comment widget *)

(** X15.  The effect of [Comments] replaces what [commentBox] held: when no
    element outside [commentBox] has the id, the element holds afterwards
    exactly one child, the new container with the script as its only child,
    so mounting again does not pile up containers or scripts. *)
Theorem Comments_replaces_content commentBox b box without :
  node_at commentBox (document b) = Some box →
  let id := commentNodeId (now b) in
  update_at commentBox emptied (document b) = Some without →
  getElementById id without = None →
  ∃ d2,
    Comments_effect commentBox b = (Normal (), with_document d2 b)
    ∧ node_at commentBox d2 =
        Some (Element (tagName_of box) (attributes_of box) (async_of box)
                [Element "div" [("id", id)] false [utterances_script]]).
Proof.
  intros Hbox id Hwithout Hfresh.
  destruct (update_at_is_Some commentBox (set_innerHTML_div id) (document b))
    as [d1 Hd1]; [by eauto|].
  assert (update_at commentBox (set_innerHTML_div id) without = Some d1) as Hd1'.
  { rewrite (update_at_twice _ _ _ _ _ Hwithout), <- Hd1.
    apply update_at_ext. by intros []. }
  pose proof (getElementById_fresh _ _ _ _ Hfresh Hd1') as Hc.
  destruct (node_at_update _ _ _ _ Hd1) as (box' & Hbox' & Hnew).
  rewrite Hbox in Hbox'. injection Hbox' as <-.
  destruct (update_at_is_Some (commentBox ++ [0%nat]) (appendChild utterances_script) d1)
    as [d2 Hd2].
  { rewrite node_at_app, Hnew. destruct box. simpl. by eauto. }
  exists d2. split.
  - unfold Comments_effect. fold id. rewrite Hd1. simpl. by rewrite Hc, Hd2.
  - destruct (node_at_update_below _ _ _ _ _ _ Hd2 Hnew) as (n' & Hn' & ->).
    destruct box. simpl in Hn'. by injection Hn' as <-.
Qed.

(** X16.  The id of the container is made of the time alone.  When an
    element that comes before [commentBox] in the document already has that
    id (the container of another [Comments] mounted in the same
    millisecond), the script is appended to that element, and the new
    container stays empty. *)
Theorem Comments_shares_id commentBox b box earlier holder :
  node_at commentBox (document b) = Some box →
  let id := commentNodeId (now b) in
  getElementById id (document b) = Some earlier →
  precedes earlier commentBox →
  node_at earlier (document b) = Some holder →
  ∃ d2,
    Comments_effect commentBox b = (Normal (), with_document d2 b)
    ∧ node_at earlier d2 = Some (appendChild utterances_script holder)
    ∧ node_at (commentBox ++ [0%nat]) d2 = Some (Element "div" [("id", id)] false []).
Proof.
  intros Hbox id Hfound Hprec Hholder.
  destruct (update_at_is_Some commentBox (set_innerHTML_div id) (document b))
    as [d1 Hd1]; [by eauto|].
  pose proof (getElementById_update_later _ _ _ _ _ _ Hfound Hprec Hd1) as Hc.
  destruct (node_at_update _ _ _ _ Hd1) as (box' & Hbox' & Hnew).
  rewrite Hbox in Hbox'. injection Hbox' as <-.
  destruct Hprec as (common & i & j & q' & p' & -> & -> & Hij).
  assert (node_at (common ++ i :: q') d1 = Some holder) as Hholder1.
  { rewrite <- Hholder. eapply node_at_update_apart; [|exact Hd1]. lia. }
  destruct (update_at_is_Some (common ++ i :: q') (appendChild utterances_script) d1)
    as [d2 Hd2]; [by eauto|].
  destruct (node_at_update _ _ _ _ Hd2) as (holder' & Hh & Hafter).
  rewrite Hholder1 in Hh. injection Hh as <-.
  exists d2. split_and!.
  - unfold Comments_effect. fold id. rewrite Hd1. simpl. by rewrite Hc, Hd2.
  - done.
  - rewrite <- app_assoc. simpl.
    rewrite (node_at_update_apart common i j q' (p' ++ [0%nat]) _ d1 d2) by (lia || done).
    change (j :: p' ++ [0%nat]) with ((j :: p') ++ [0%nat]).
    rewrite app_assoc, node_at_app, Hnew. by destruct box.
Qed.

End BrowserMoreTheory.

(** ** Theorems on the script that generates the PKCE values *)

Section NodeScriptTheory.
Import JS NodeScript.

Lemma replace_all_chars a b s :
  list_ascii_of_string (replace_all a b s)
  = (λ c, if Ascii.eqb c a then b else c) <$> list_ascii_of_string s.
Proof. induction s as [|c s IH]; simpl; [done | by rewrite IH]. Qed.

Lemma remove_all_chars a s :
  list_ascii_of_string (remove_all a s)
  = filter (λ c, c ≠ a) (list_ascii_of_string s).
Proof.
  induction s as [|c s IH]; simpl; [done|].
  destruct (Ascii.eqb_spec c a) as [->|Hne].
  - by rewrite filter_cons_False by (by intros ?).
  - rewrite filter_cons_True by done. simpl. by rewrite IH.
Qed.

Lemma base64URLEncode_chars enc str :
  list_ascii_of_string (base64URLEncode enc str)
  = filter (λ c, c ≠ "="%char) (url_subst <$> list_ascii_of_string (enc str)).
Proof.
  unfold base64URLEncode.
  by rewrite remove_all_chars, !replace_all_chars, <- list_fmap_compose.
Qed.


Lemma url_subst_safe c :
  url_subst c ≠ "+"%char ∧ url_subst c ≠ "/"%char.
Proof. destruct c as [[] [] [] [] [] [] [] []]; by vm_compute. Qed.

Lemma base64_char_url n : is_url_char (url_subst (base64_char n)) = true.
Proof.
  unfold base64_char.
  assert (forallb (λ c, is_url_char (url_subst c))
            (list_ascii_of_string
               "ABCDEFGHIJKLMNOPQRSTUVWXYZabcdefghijklmnopqrstuvwxyz0123456789+/")
          = true) as Hall by (vm_compute; reflexivity).
  rewrite forallb_forall in Hall.
  destruct (_ !! N.to_nat n) as [c|] eqn:Hc; simpl.
  - apply Hall. apply list_elem_of_In. by eapply list_elem_of_lookup_2.
  - reflexivity.
Qed.

Lemma is_url_char_not_padding c : is_url_char c = true → c ≠ "="%char.
Proof. by intros Hc ->. Qed.

Lemma triples_ind (P : list N → Prop) :
  P [] → (∀ a, P [a]) → (∀ a b, P [a; b]) →
  (∀ a b c r, P r → P (a :: b :: c :: r)) →
  ∀ l, P l.
Proof.
  intros H0 H1 H2 H3. fix IH 1.
  intros [|a [|b [|c r]]]; [exact H0 | apply H1 | apply H2 | apply H3, IH].
Qed.

Ltac keep_url_chars :=
  repeat (rewrite filter_cons_True
            by (apply is_url_char_not_padding, base64_char_url)).

Lemma encode_groups_url l :
  let out := filter (λ c, c ≠ "="%char) (url_subst <$> encode_groups l) in
  Forall (λ c, is_url_char c = true) out
  ∧ length out = ((4 * length l + 2) / 3)%nat.
Proof.
  induction l as [|a|a b|a b c r [IHc IHl]] using triples_ind; cbn zeta in *.
  - by split; [constructor|].
  - cbn [encode_groups fmap list_fmap]. keep_url_chars.
    change (url_subst "=") with "="%char.
    rewrite !filter_cons_False, filter_nil by (by intros ?).
    split; [|done]. repeat constructor; apply base64_char_url.
  - cbn [encode_groups fmap list_fmap]. keep_url_chars.
    change (url_subst "=") with "="%char.
    rewrite !filter_cons_False, filter_nil by (by intros ?).
    split; [|done]. repeat constructor; apply base64_char_url.
  - cbn [encode_groups fmap list_fmap]. keep_url_chars.
    split.
    + repeat (constructor; [apply base64_char_url|]). exact IHc.
    + cbn [length]. rewrite IHl.
      replace (4 * S (S (S (length r))) + 2)%nat
        with (4 * 3 + (4 * length r + 2))%nat by lia.
      by rewrite Nat.div_add_l.
Qed.

Lemma url_char_unreserved c : is_url_char c = true → Demo.encode_unit c = String c "".
Proof. destruct c as [[] [] [] [] [] [] [] []]; vm_compute; done. Qed.

Lemma encode_url_chars l :
  Forall (λ c, is_url_char c = true) l →
  join "" (Demo.encode_unit <$> l) = string_of_list_ascii l.
Proof.
  induction 1 as [|c l Hc _ IH]; [done|].
  rewrite fmap_cons. destruct (Demo.encode_unit <$> l) as [|x xs] eqn:Hl.
  - destruct l; [|done]. simpl. by apply url_char_unreserved.
  - change (join "" (Demo.encode_unit c :: x :: xs))
      with (Demo.encode_unit c +:+ "" +:+ join "" (x :: xs)).
    rewrite IH, url_char_unreserved by done. done.
Qed.

(** X17.  What [base64URLEncode] returns has no [+], [/] or [=], whatever
    the base64 text.  With the standard base64 of a buffer it is made of
    letters, digits, [-] and [_] only, its length for [n] bytes is
    [(4n + 2) / 3] (43 for the 32 random bytes of the code verifier, as for
    a SHA-256 digest), and [encodeURIComponent] leaves it as it is, so the
    request body carries the code verifier unchanged. *)
Theorem base64URLEncode_is_url_safe :
  (∀ enc str c, c ∈ list_ascii_of_string (base64URLEncode enc str) →
     c ≠ "+"%char ∧ c ≠ "/"%char ∧ c ≠ "="%char)
  ∧ (∀ buffer,
       let v := base64URLEncode toString_base64 buffer in
       Forall (λ c, is_url_char c = true) (list_ascii_of_string v)
       ∧ String.length v = ((4 * String.length buffer + 2) / 3)%nat
       ∧ (String.length buffer = 32%nat → String.length v = 43%nat)
       ∧ Demo.encodeURIComponent (JStr v) = Normal v).
Proof.
  split.
  - intros enc str c. rewrite base64URLEncode_chars.
    intros [Hpad (c0 & -> & _)%list_elem_of_fmap]%list_elem_of_filter.
    destruct (url_subst_safe c0). by split_and!.
  - intros buffer v.
    assert (list_ascii_of_string v
            = filter (λ c, c ≠ "="%char)
                (url_subst <$> encode_groups (N_of_ascii <$> list_ascii_of_string buffer)))
      as Hv.
    { unfold v. rewrite base64URLEncode_chars. unfold toString_base64.
      by rewrite list_ascii_of_string_of_list_ascii. }
    destruct (encode_groups_url (N_of_ascii <$> list_ascii_of_string buffer))
      as [Hchars Hlen].
    rewrite length_fmap in Hlen.
    assert (∀ s, length (list_ascii_of_string s) = String.length s) as Hlength
      by (intros s; induction s; simpl; congruence).
    rewrite Hlength in Hlen.
    assert (String.length v = ((4 * String.length buffer + 2) / 3)%nat) as Hvlen
      by (by rewrite <- Hlength, Hv).
    split_and!.
    + by rewrite Hv.
    + done.
    + intros H32. by rewrite Hvlen, H32.
    + unfold Demo.encodeURIComponent; simpl.
      rewrite encode_url_chars by (by rewrite Hv).
      by rewrite string_of_list_ascii_of_string.
Qed.

End NodeScriptTheory.

(** ** Further theorems on the refresh *)

Section RefreshMoreTheory.
Import JS Token TokenSpec TokenMore.
Context {platform : Platform} {host : Host}.
Variable config : Config.

(** X18.  A refresh replaces the access token only: whatever the answer of
    the token endpoint holds besides [access_token] (a rotated
    [refresh_token], for instance), the refresh token of the instance and
    the environment variable [refresh_token] stay as they were. *)
Theorem refresh_keeps_refresh_token w t w1 :
  guard w = Normal false →
  ToBoolean (refreshToken (this w)) = true →
  refreshAccessToken config w = (Normal t, w1) →
  (getAccessToken config w).1 = Normal t
  ∧ refreshToken (this (getAccessToken config w).2) = refreshToken (this w)
  ∧ environment (getAccessToken config w).2 !! "refresh_token"
    = environment w !! "refresh_token"
  ∧ environment (getAccessToken config w).2 !! "token" = Some t.
Proof.
  intros Hg Hr Ht.
  destruct (quiet_unchanged (refreshAccessToken config) w
              (quiet_refreshAccessToken config)) as [Henv Hthis].
  rewrite Ht in Henv, Hthis. simpl in Henv, Hthis.
  rewrite (getAccessToken_refreshed _ _ _ _ Hg Hr Ht). simpl.
  rewrite Hthis, Henv. split_and!; [done | done | | apply lookup_insert_eq].
  by rewrite lookup_insert_ne.
Qed.

End RefreshMoreTheory.

(** ** The further theorems on concrete inputs *)

Section MoreRuns.
Import JS Token TokenSpec TokenMore DecodeMore TokenDemo.
Import Browser BrowserSpec BrowserMore BrowserDemo MoreDemo.

Ltac no_such_char := apply (bool_decide_eq_true_1 _); vm_compute; reflexivity.

(** The refresh token is rejected and the user declines the dialog: the
    error of the dialog leaves, and nothing was written. *)
Lemma getAccessToken_failure_writes_nothing_witness :
  let h := host_with declined invalid_grant offline in
  let w := world JUndefined (JStr "R1") in
  ∃ w', @getAccessToken Demo.platform h config w = (Throw (Rejection "access_denied"), w')
        ∧ environment w' = environment w ∧ this w' = this w.
Proof.
  intros h w.
  destruct (@getAccessToken Demo.platform h config w) as [r w'] eqn:Hrun.
  assert (r = Throw (Rejection "access_denied")) as ->
    by (apply (f_equal fst) in Hrun; vm_compute in Hrun; congruence).
  exists w'. split; [done|].
  exact (@getAccessToken_failure_writes_nothing Demo.platform h config w _ w' Hrun).
Defined.

(** After the fallback the environment holds the token that is returned. *)
Lemma preflight_stores_returned_token_witness :
  let w := world JUndefined (JStr "R1") in
  environment_get
    (environment (@preflight Demo.platform (host invalid_grant) config w).2) "token"
  = JStr "A2".
Proof.
  intros w.
  apply (@preflight_stores_returned_token Demo.platform (host invalid_grant) config w).
  vm_compute. reflexivity.
Defined.

(** The first run gets a token from the dialog; the second run finds it in
    the environment and does nothing. *)
Lemma preflight_again_uses_stored_token_witness :
  let h := host_with granted offline tokens_with_jwt in
  ∃ w1, @preflight Demo.platform h config (world JUndefined JUndefined)
        = (Normal (JStr jwt), w1)
        ∧ @preflight Demo.platform h config w1 = (Normal (JStr jwt), w1).
Proof.
  intros h.
  destruct (@preflight Demo.platform h config (world JUndefined JUndefined))
    as [r w1] eqn:Hrun.
  assert (r = Normal (JStr jwt)) as ->
    by (change r with (r, w1).1; rewrite <- Hrun; vm_compute; reflexivity).
  exists w1. split; [done|].
  apply (@preflight_again_uses_stored_token Demo.platform h config _ _ _ Hrun);
    vm_compute; reflexivity.
Defined.

(** A forged signature changes nothing for the two checks. *)
Lemma signature_is_ignored_witness :
  let h := "eyJ0eXAiOiJKV1QiLCJhbGciOiJIUzI1NiJ9" in
  let p := "eyJleHAiOjQxMDI0NDQ4MDB9" in
  @isValidTokenHeader Demo.platform (JStr (three_segments h p "c2ln"))
  = @isValidTokenHeader Demo.platform (JStr (three_segments h p "Zm9yZ2Vk")).
Proof.
  intros h p.
  apply (@signature_is_ignored Demo.platform h p "c2ln" "Zm9yZ2Vk" 0); no_such_char.
Defined.

(** The token of the examples expires in 2100: not yet. *)
Lemma isTokenExpired_exp_witness :
  @isTokenExpired Demo.platform (JStr jwt) 1700000000000 = Normal true
  ↔ (4102444800 # 1 < inject_Z (1700000000000 / 1000))%Q.
Proof.
  assert (@parseJwt Demo.platform (JStr jwt)
          = Normal (JObj [("exp", JNum (Fin (4102444800 # 1)))])) as Hparse
    by (vm_compute; reflexivity).
  exact (proj2 (proj2 (@isTokenExpired_exp Demo.platform (JStr jwt) 1700000000000
                         _ Hparse) (4102444800 # 1) eq_refl)).
Defined.

(** The number 5 stored as the token by hand *)
Lemma getAccessToken_non_string_token_witness :
  let w := world (JNum (Fin 5)) (JStr "R1") in
  @getAccessToken Demo.platform (host offline) config w = (Throw TypeError, w).
Proof.
  intros w.
  apply (@getAccessToken_non_string_token Demo.platform (host offline) config w);
    [reflexivity | discriminate].
Defined.

(** The token endpoint rejects the authorization code: [undefined] is
    returned and stored. *)
Lemma retrieveNewTokens_ignores_error_witness :
  let h := host_with granted offline bad_code in
  let w := world (JStr expired_jwt) JUndefined in
  (@getAccessToken Demo.platform h config w).1 = Normal JUndefined
  ∧ environment (@getAccessToken Demo.platform h config w).2 !! "token"
    = Some JUndefined.
Proof.
  intros h w.
  refine (proj2 (@retrieveNewTokens_ignores_error Demo.platform h config w
                   [("error", JStr "invalid_grant");
                    ("error_description", JStr "AADSTS70008")] _) _ _ _);
    vm_compute; reflexivity.
Defined.

(** A refresh whose answer rotates the refresh token: the new one is
    dropped. *)
Lemma refresh_keeps_refresh_token_witness :
  let h := host (Normal (Demo.json "{'access_token':'A1','refresh_token':'R9'}")) in
  let w := world JUndefined (JStr "R1") in
  (@getAccessToken Demo.platform h config w).1 = Normal (JStr "A1")
  ∧ environment (@getAccessToken Demo.platform h config w).2 !! "refresh_token"
    = Some (JStr "R1").
Proof.
  intros h w.
  destruct (@refreshAccessToken Demo.platform h config w) as [r w1] eqn:Ht.
  assert (r = Normal (JStr "A1")) as ->
    by (apply (f_equal fst) in Ht; vm_compute in Ht; congruence).
  destruct (@refresh_keeps_refresh_token Demo.platform h config w (JStr "A1") w1)
    as (Hret & _ & Henv & _); [vm_compute; reflexivity | reflexivity | exact Ht |].
  split; [exact Hret|]. rewrite Henv. vm_compute. reflexivity.
Defined.

(** The executable [encodeURIComponent] never leaves an [&]. *)

Lemma Demo_encode_unit_no_amp c : "&"%char ∉ list_ascii_of_string (Demo.encode_unit c).
Proof. destruct c as [[] [] [] [] [] [] [] []]; no_such_char. Qed.

Lemma Demo_encodeURIComponent_no_amp v s :
  Demo.encodeURIComponent v = Normal s → "&"%char ∉ list_ascii_of_string s.
Proof.
  unfold Demo.encodeURIComponent, mbind, Completion_bind.
  destruct (Demo.ToString v) as [text|]; [|done]. intros [= <-].
  induction (list_ascii_of_string text) as [|c l IH]; [by apply not_elem_of_nil|].
  rewrite fmap_cons, join_empty_cons, list_ascii_of_string_app.
  intros [Hin | Hin]%elem_of_app; [by eapply Demo_encode_unit_no_amp | done].
Qed.

(** A value with [&] and [=] in it stays one field. *)
Lemma constructRequestBody_fields_witness :
  let data := [("code", JStr "a&b=c"); ("redirect_uri", JStr "https://x.example/cb")] in
  Forall2 (λ kv part, ∃ value, Demo.encodeURIComponent kv.2 = Normal value
                               ∧ part = field kv.1 value)
    data
    (split "&" "code=a%26b%3Dc&redirect_uri=https%3A%2F%2Fx.example%2Fcb").
Proof.
  intros data.
  apply (@constructRequestBody_fields Demo.platform data
           "code=a%26b%3Dc&redirect_uri=https%3A%2F%2Fx.example%2Fcb"
           Demo_encodeURIComponent_no_amp).
  - repeat constructor; no_such_char.
  - discriminate.
  - vm_compute. reflexivity.
Defined.

End MoreRuns.

Section MoreBrowserRuns.
Import JS Browser BrowserSpec BrowserMore BrowserDemo MoreDemo.

(** The reader scrolls to 120.5, the page is left and opened again. *)
Lemma scroll_offset_survives_remount_witness :
  let mounted := (@useSaveScrollPosition_effect Demo.platform (page ∅)).2 in
  let b' := @run Demo.platform [UnmountScrollHook 0%nat; MountComments [0; 0]%nat]
              (@scroll_event Demo.platform (Fin (241 # 2)) mounted) in
  log (@useSaveScrollPosition_effect Demo.platform b').2
  = log b' ++ [ GetItem "scrollPosition"; ScrollTo (Fin (241 # 2)) "smooth";
                AddEventListener "scroll" (next_closure b') ].
Proof.
  intros mounted b'.
  apply (@scroll_offset_survives_remount Demo.platform mounted (Fin (241 # 2))).
  - vm_compute. discriminate.
  - vm_compute. discriminate.
  - vm_compute. reflexivity.
  - repeat constructor.
Defined.

(** Two components mount, one unmounts, the page scrolls, and a third
    mounts and unmounts: the listener of the second is the one left. *)
Lemma mount_unmount_leaves_listeners_witness :
  let b := @run Demo.platform
             [MountScrollHook; MountScrollHook; UnmountScrollHook 0%nat;
              Scroll (number_of_Z 7)] (page ∅) in
  scroll_listeners
    (useSaveScrollPosition_cleanup (@useSaveScrollPosition_effect Demo.platform b).1
       (@useSaveScrollPosition_effect Demo.platform b).2)
  = [1%nat].
Proof.
  intros b.
  destruct (@mount_unmount_leaves_listeners Demo.platform
              [MountScrollHook; MountScrollHook; UnmountScrollHook 0%nat;
               Scroll (number_of_Z 7)] (page ∅) eq_refl) as (_ & _ & Hback).
  fold b in Hback. rewrite Hback. vm_compute. reflexivity.
Defined.

(** [Comments] mounts twice in the same place, in the same millisecond:
    one container, one script. *)
Lemma Comments_replaces_content_witness :
  let b := (@Comments_effect Demo.platform [0; 0]%nat (page ∅)).2 in
  ∃ d2,
    @Comments_effect Demo.platform [0; 0]%nat b = (Normal (), with_document d2 b)
    ∧ node_at [0; 0]%nat d2
      = Some (Element "div" [] false
                [Element "div" [("id", "comments_1700000000000")] false
                   [utterances_script]]).
Proof.
  intros b.
  destruct (@Comments_replaces_content Demo.platform [0; 0]%nat b
              (Element "div" [] false
                 [Element "div" [("id", "comments_1700000000000")] false
                    [utterances_script]])
              (document (page ∅)))
    as (d2 & Hrun & Hbox); [vm_compute; reflexivity .. |].
  exists d2. split; [exact Hrun | exact Hbox].
Defined.

(** Two [Comments] mount in the same millisecond: both scripts end in the
    container of the first, and the container of the second is empty. *)
Lemma Comments_shares_id_witness :
  let b := (@Comments_effect Demo.platform [0; 0]%nat two_boxes).2 in
  let container :=
    Element "div" [("id", "comments_1700000000000")] false [utterances_script] in
  ∃ d2,
    @Comments_effect Demo.platform [0; 1]%nat b = (Normal (), with_document d2 b)
    ∧ node_at [0; 0; 0]%nat d2
      = Some (Element "div" [("id", "comments_1700000000000")] false
                [utterances_script; utterances_script])
    ∧ node_at [0; 1; 0]%nat d2
      = Some (Element "div" [("id", "comments_1700000000000")] false []).
Proof.
  intros b container.
  destruct (@Comments_shares_id Demo.platform [0; 1]%nat b
              (Element "div" [] false []) [0; 0; 0]%nat container)
    as (d2 & Hrun & Hfirst & Hsecond).
  - vm_compute. reflexivity.
  - vm_compute. reflexivity.
  - exists [0%nat], 0%nat, 1%nat, [0%nat], []. split_and!; [done | done | lia].
  - vm_compute. reflexivity.
  - exists d2. split_and!; [exact Hrun | exact Hfirst | exact Hsecond].
Defined.

End MoreBrowserRuns.
